(** * replaceDogWithCat: a shallow embedding of [src/utils/replacer.ts]

    The replacer walks a JavaScript value, replaces every value that is
    strictly equal to the string ["dog"] by ["cat"], counts the
    replacements and guards the walk by a replacement ceiling, a depth
    ceiling and a [WeakSet] of the containers it has entered.

    JavaScript arrays and objects are references: the same container can
    be reached along several paths, and a container can contain itself.
    The embedding therefore keeps containers in a heap and lets values
    point into it, so that sharing and cycles are inputs like any other.

    After the replacer come its first version, without the visited set
    and the depth ceiling (module [Unguarded]), the configuration loader
    of [src/config.ts] and the route handler of [src/routes/replace.ts]. *)

From Stdlib Require Import Lia.
From stdpp Require Import base decidable numbers option list sets gmap strings
  pretty.

(** ** Values and the heap *)

(** A container is identified by its address. *)
Abbreviation addr := nat (only parsing).

(** Primitive values.  Numbers are only ever passed through, so an
    integer stands for them. *)
Inductive scalar :=
| SUndefined
| SNull
| SBool (b : bool)
| SNum (z : Z)
| SStr (s : string).

(** A value is a primitive or a reference to a container. *)
Inductive value :=
| VScalar (s : scalar)
| VRef (a : addr).

(** An array holds its elements in index order; an object holds its own
    enumerable string-keyed properties in the order in which
    [Object.entries] lists them. *)
Inductive container :=
| CArr (items : list value)
| CObj (entries : list (string * value)).

(** Addresses are positions in the heap; allocation appends. *)
Abbreviation heap := (list container) (only parsing).

#[global] Instance scalar_eq_dec : EqDecision scalar.
Proof. solve_decision. Defined.
#[global] Instance value_eq_dec : EqDecision value.
Proof. solve_decision. Defined.

Definition alloc (h : heap) (c : container) : addr * heap :=
  (length h, h ++ [c]).

(** ** Errors and results *)

Inductive error :=
| ReplacementLimitExceededError (replacementCount limit : nat)
| CircularReferenceError
| MaxDepthExceededError (maxDepth : nat).

Record ReplacementResult := mkResult {
  data : value;
  replacementCount : nat
}.

(** The state threaded through one top-level call: the heap (which only
    grows, by the result containers) and the [visited] WeakSet. *)
Record state := mkState {
  st_heap : heap;
  st_visited : gset addr
}.

(** Outcome of a computation: a normal return with the new state, a
    thrown error, or [Timeout] when the recursion budget of the embedding
    is used up (never the case for the budget the entry point gives, see
    [no_timeout]). *)
Inductive res (A : Type) :=
| Ok (a : A) (s : state)
| Err (e : error)
| Timeout.
Arguments Ok {A} a s.
Arguments Err {A} e.
Arguments Timeout {A}.

Definition DEFAULT_MAX_DEPTH : nat := 100.

(** [value === 'dog'] *)
Definition is_dog (v : value) : bool :=
  match v with
  | VScalar (SStr s) => bool_decide (s = "dog")
  | _ => false
  end.

Definition cat : value := VScalar (SStr "cat").

(** [result[key] = v] on an object that started as the literal [{}] and
    has so far received the keys of [result], all different from [key]
    ([Object.entries] lists every key once).  An ordinary key becomes a
    new own property, listed last.  The key ["__proto__"] is not ordinary:
    the literal [{}] inherits the accessor [Object.prototype.__proto__],
    so the assignment runs that setter (which changes the prototype when
    [v] is an object or [null] and does nothing otherwise) and defines no
    own property. *)
Definition obj_set (result : list (string * value)) (key : string) (v : value)
  : list (string * value) :=
  if decide (key = "__proto__") then result else result ++ [(key, v)].

Section Loops.
(** The two [for ... of] loops, over the recursive call [rec]. *)
Variable rec : value -> nat -> state -> res ReplacementResult.

Fixpoint loop_items (items : list value) (totalCount : nat)
    (result : list value) (st : state) : res (list value * nat) :=
  match items with
  | [] => Ok (result, totalCount) st
  | item :: rest =>
      match rec item totalCount st with
      | Ok itemResult st' =>
          loop_items rest (replacementCount itemResult)
                     (result ++ [data itemResult]) st'
      | Err e => Err e
      | Timeout => Timeout
      end
  end.

Fixpoint loop_entries (entries : list (string * value)) (totalCount : nat)
    (result : list (string * value)) (st : state)
    : res (list (string * value) * nat) :=
  match entries with
  | [] => Ok (result, totalCount) st
  | (key, val) :: rest =>
      match rec val totalCount st with
      | Ok valResult st' =>
          loop_entries rest (replacementCount valResult)
                       (obj_set result key (data valResult)) st'
      | Err e => Err e
      | Timeout => Timeout
      end
  end.
End Loops.

(** [visited.add(value)] *)
Definition mark (a : addr) (st : state) : state :=
  mkState (st_heap st) ({[a]} ∪ st_visited st).

(** [return { data: result, replacementCount: totalCount }]: the local
    [result] cannot be reached by anyone before the return, so it is kept
    as a local list during the loop and stored in the heap here. *)
Definition return_container (c : container) (totalCount : nat) (st : state)
  : res ReplacementResult :=
  let '(a, h') := alloc (st_heap st) c in
  Ok (mkResult (VRef a) totalCount) (mkState h' (st_visited st)).

(** The function itself.  [fuel] bounds the recursion of the embedding;
    the parameters follow the source in order, with the state (heap and
    [visited]) last.  A reference that the heap does not bind stands for
    a value that is neither an array nor of type ['object'] and takes the
    final branch. *)
Fixpoint replaceDogWithCat (fuel : nat) (value : value)
    (maxReplacements currentCount depth maxDepth : nat) (st : state)
    : res ReplacementResult :=
  match fuel with
  | O => Timeout
  | S fuel' =>
    if decide (maxDepth < depth) then Err (MaxDepthExceededError maxDepth)
    else if is_dog value then
      let newCount := currentCount + 1 in
      if decide (maxReplacements < newCount)
      then Err (ReplacementLimitExceededError newCount maxReplacements)
      else Ok (mkResult cat newCount) st
    else
      let rec := fun v c s =>
        replaceDogWithCat fuel' v maxReplacements c (depth + 1) maxDepth s in
      match value with
      | VRef a =>
          match st_heap st !! a with
          | Some (CArr items) =>
              if decide (a ∈ st_visited st) then Err CircularReferenceError
              else
                match loop_items rec items currentCount [] (mark a st) with
                | Ok (result, totalCount) st' =>
                    return_container (CArr result) totalCount st'
                | Err e => Err e
                | Timeout => Timeout
                end
          | Some (CObj entries) =>
              if decide (a ∈ st_visited st) then Err CircularReferenceError
              else
                match loop_entries rec entries currentCount [] (mark a st) with
                | Ok (result, totalCount) st' =>
                    return_container (CObj result) totalCount st'
                | Err e => Err e
                | Timeout => Timeout
                end
          | None => Ok (mkResult value currentCount) st
          end
      | VScalar _ => Ok (mkResult value currentCount) st
      end
  end.

(** Budget that a call at [depth] needs: a call deeper than [maxDepth]
    throws at once, every other call recurses one level down. *)
Definition budget (maxDepth depth : nat) : nat := S (S maxDepth - depth).

(** A top-level call [replaceDogWithCat(value, maxReplacements, 0,
    new WeakSet(), 0, maxDepth)], with the budget for depth 0. *)
Definition replace (h : heap) (value : value) (maxReplacements maxDepth : nat)
  : res ReplacementResult :=
  replaceDogWithCat (budget maxDepth 0) value maxReplacements 0 0 maxDepth
                    (mkState h ∅).

(** [replaceDogWithCat(value, maxReplacements)], as the route calls it. *)
Definition replace_default (h : heap) (value : value) (maxReplacements : nat)
  : res ReplacementResult :=
  replace h value maxReplacements DEFAULT_MAX_DEPTH.

Definition str (s : string) : value := VScalar (SStr s).

(** ** JSON trees

    The [Value] of the data model: a tree without sharing.  Deep equality
    of two JavaScript values is equality of the trees they unfold to. *)

#[local] Set Warnings "-register-all".

Inductive json :=
| JScalar (s : scalar)
| JArr (items : list json)
| JObj (entries : list (string * json)).

Section JsonInd.
Variable P : json -> Prop.
Hypothesis Hscalar : forall s, P (JScalar s).
Hypothesis Harr : forall items, Forall P items -> P (JArr items).
Hypothesis Hobj : forall entries, Forall (fun e => P e.2) entries -> P (JObj entries).

Fixpoint json_ind' (t : json) : P t :=
  match t with
  | JScalar s => Hscalar s
  | JArr items =>
      Harr items
        ((fix go (l : list json) : Forall P l :=
            match l with
            | [] => Forall_nil_2 P
            | x :: r => Forall_cons_2 P x r (json_ind' x) (go r)
            end) items)
  | JObj entries =>
      Hobj entries
        ((fix go (l : list (string * json)) : Forall (fun e => P e.2) l :=
            match l with
            | [] => Forall_nil_2 _
            | x :: r => Forall_cons_2 (fun e => P e.2) x r (json_ind' x.2) (go r)
            end) entries)
  end.
End JsonInd.

Definition is_dog_scalar (s : scalar) : bool := is_dog (VScalar s).

(** Number of scalar entries equal to the match value. *)
Fixpoint countDog (t : json) : nat :=
  match t with
  | JScalar s => if is_dog_scalar s then 1 else 0
  | JArr items => sum_list (map countDog items)
  | JObj entries => sum_list (map (fun e => countDog e.2) entries)
  end.

(** Depth of the deepest node, the root being at depth 0 and every child
    of a container one deeper than the container. *)
Fixpoint depthOf (t : json) : nat :=
  match t with
  | JScalar _ => 0
  | JArr items => max_list (map (fun x => S (depthOf x)) items)
  | JObj entries => max_list (map (fun e => S (depthOf e.2)) entries)
  end.

(** The transformation the specification describes: every scalar equal to
    the match value becomes the replacement value, everything else
    (lengths, positions, keys and their order) stays. *)
Fixpoint cat_for_dog (t : json) : json :=
  match t with
  | JScalar s => if is_dog_scalar s then JScalar (SStr "cat") else JScalar s
  | JArr items => JArr (map cat_for_dog items)
  | JObj entries => JObj (map (fun e => (e.1, cat_for_dog e.2)) entries)
  end.

(** No object anywhere in the tree has the key ["__proto__"]. *)
Fixpoint plain_keys (t : json) : Prop :=
  match t with
  | JScalar _ => True
  | JArr items => foldr (fun x acc => plain_keys x /\ acc) True items
  | JObj entries =>
      foldr (fun e acc => e.1 <> "__proto__" /\ plain_keys e.2 /\ acc) True entries
  end.

(** Keys of the root object, in order; none for other values. *)
Definition keys (t : json) : list string :=
  match t with
  | JObj entries => entries.*1
  | _ => []
  end.

(** ** Unfolding a heap value

    [rep h v t l]: in heap [h] the value [v] unfolds to the tree [t], and
    [l] lists the addresses of the containers met, in traversal order
    (a container reached along two paths is listed twice). *)
Inductive rep (h : heap) : value -> json -> list addr -> Prop :=
| rep_scalar s : rep h (VScalar s) (JScalar s) []
| rep_arr a items ts l :
    h !! a = Some (CArr items) ->
    rep_items h items ts l ->
    rep h (VRef a) (JArr ts) (a :: l)
| rep_obj a entries tes l :
    h !! a = Some (CObj entries) ->
    rep_entries h entries tes l ->
    rep h (VRef a) (JObj tes) (a :: l)
with rep_items (h : heap) : list value -> list json -> list addr -> Prop :=
| rep_items_nil : rep_items h [] [] []
| rep_items_cons v vs t ts l ls :
    rep h v t l -> rep_items h vs ts ls ->
    rep_items h (v :: vs) (t :: ts) (l ++ ls)
with rep_entries (h : heap)
  : list (string * value) -> list (string * json) -> list addr -> Prop :=
| rep_entries_nil : rep_entries h [] [] []
| rep_entries_cons k v es t tes l ls :
    rep h v t l -> rep_entries h es tes ls ->
    rep_entries h ((k, v) :: es) ((k, t) :: tes) (l ++ ls).

Scheme rep_mut := Induction for rep Sort Prop
  with rep_items_mut := Induction for rep_items Sort Prop
  with rep_entries_mut := Induction for rep_entries Sort Prop.
Combined Scheme rep_mutind from rep_mut, rep_items_mut, rep_entries_mut.

(** Two values are deep-equal when they unfold to the same tree. *)
Definition deep_equal (h1 : heap) (v1 : value) (h2 : heap) (v2 : value) : Prop :=
  exists t l1 l2, rep h1 v1 t l1 /\ rep h2 v2 t l2.

(** ** The traversal on trees

    The algorithm of [replaceDogWithCat] read on a tree: the same checks
    in the same order, the same threading of the count, no heap and no
    [visited] set.  [walk_refines] shows that the heap function computes
    exactly this on every input in which no container is met twice. *)
Section TreeLoops.
Variable rec : json -> nat -> error + (json * nat).

Fixpoint walk_items (items : list json) (totalCount : nat)
    (result : list json) : error + (list json * nat) :=
  match items with
  | [] => inr (result, totalCount)
  | item :: rest =>
      match rec item totalCount with
      | inr (t', c') => walk_items rest c' (result ++ [t'])
      | inl e => inl e
      end
  end.

Fixpoint walk_entries (entries : list (string * json)) (totalCount : nat)
    (result : list (string * json)) : error + (list (string * json) * nat) :=
  match entries with
  | [] => inr (result, totalCount)
  | (key, val) :: rest =>
      match rec val totalCount with
      | inr (t', c') =>
          walk_entries rest c'
            (if decide (key = "__proto__") then result else result ++ [(key, t')])
      | inl e => inl e
      end
  end.
End TreeLoops.

Fixpoint walk (maxReplacements maxDepth : nat) (t : json)
    (currentCount depth : nat) {struct t} : error + (json * nat) :=
  if decide (maxDepth < depth) then inl (MaxDepthExceededError maxDepth)
  else
    match t with
    | JScalar s =>
        if is_dog_scalar s then
          if decide (maxReplacements < currentCount + 1)
          then inl (ReplacementLimitExceededError (currentCount + 1) maxReplacements)
          else inr (JScalar (SStr "cat"), currentCount + 1)
        else inr (t, currentCount)
    | JArr items =>
        match walk_items
                (fun x c => walk maxReplacements maxDepth x c (depth + 1))
                items currentCount [] with
        | inr (r, k) => inr (JArr r, k)
        | inl e => inl e
        end
    | JObj entries =>
        match walk_entries
                (fun x c => walk maxReplacements maxDepth x c (depth + 1))
                entries currentCount [] with
        | inr (r, k) => inr (JObj r, k)
        | inl e => inl e
        end
    end.

(** ** Vocabulary of the properties *)

(** [r] is the outcome [w] of the tree traversal: the same error, or a
    result that unfolds to the tree of [w] with the same count, stored in
    fresh containers appended to [h], leaving [vis'] as visited set. *)
Definition refines (r : res ReplacementResult) (w : error + (json * nat))
    (h : heap) (vis' : gset addr) : Prop :=
  match w with
  | inl e => r = Err e
  | inr (t', c') =>
      exists v' h2 l',
        r = Ok (mkResult v' c') (mkState (h ++ h2) vis') /\
        rep (h ++ h2) v' t' l' /\ NoDup l' /\
        Forall (fun a => length h <= a) l'
  end.

Definition refines_items (r : res (list value * nat))
    (w : error + (list json * nat)) (h : heap) (vis' : gset addr)
    (lacc : list addr) : Prop :=
  match w with
  | inl e => r = Err e
  | inr (ts', c') =>
      exists vs' h2 lnew,
        r = Ok (vs', c') (mkState (h ++ h2) vis') /\
        rep_items (h ++ h2) vs' ts' (lacc ++ lnew) /\ NoDup lnew /\
        Forall (fun a => length h <= a) lnew
  end.

Definition refines_entries (r : res (list (string * value) * nat))
    (w : error + (list (string * json) * nat)) (h : heap) (vis' : gset addr)
    (lacc : list addr) : Prop :=
  match w with
  | inl e => r = Err e
  | inr (ts', c') =>
      exists vs' h2 lnew,
        r = Ok (vs', c') (mkState (h ++ h2) vis') /\
        rep_entries (h ++ h2) vs' ts' (lacc ++ lnew) /\ NoDup lnew /\
        Forall (fun a => length h <= a) lnew
  end.

Definition fresh_for (l : list addr) (vis : gset addr) : Prop :=
  forall a, a ∈ l -> a ∉ vis.

(** The tree that the code builds: [cat_for_dog], except that an entry
    under the key ["__proto__"] gets no own property in the result. *)
Fixpoint built (t : json) : json :=
  match t with
  | JScalar s => if is_dog_scalar s then JScalar (SStr "cat") else JScalar s
  | JArr items => JArr (map built items)
  | JObj entries =>
      JObj (flat_map (fun e => if decide (e.1 = "__proto__") then []
                               else [(e.1, built e.2)]) entries)
  end.

Definition build_entries (entries : list (string * json)) : list (string * json) :=
  flat_map (fun e => if decide (e.1 = "__proto__") then []
                     else [(e.1, built e.2)]) entries.

Definition child_depths (ts : list json) : list nat :=
  map (fun x => S (depthOf x)) ts.

(** What [walk] returns, by cases on the two ceilings. *)
Definition walk_spec (max maxDepth : nat) (t : json) (c depth : nat)
    (w : error + (json * nat)) : Prop :=
  (w = inr (built t, c + countDog t) /\
     depthOf t + depth <= maxDepth /\ c + countDog t <= max) \/
  (w = inl (ReplacementLimitExceededError (max + 1) max) /\
     max < c + countDog t) \/
  (w = inl (MaxDepthExceededError maxDepth) /\ maxDepth < depthOf t + depth).

(** From count [c] in state [st] to count [k] in state [st']: the count
    has not gone down and stays within the limit it was within, nothing
    has left the visited set, and the heap has only grown. *)
Definition advances (max c : nat) (st : state) (k : nat) (st' : state) : Prop :=
  c <= k /\ (c <= max -> k <= max) /\
  st_visited st ⊆ st_visited st' /\
  exists h2, st_heap st' = st_heap st ++ h2.

(** The payloads of the three errors for limits [max] and [maxDepth]. *)
Definition payload_ok (max maxDepth : nat) (e : error) : Prop :=
  match e with
  | ReplacementLimitExceededError n lim => n = max + 1 /\ lim = max
  | CircularReferenceError => True
  | MaxDepthExceededError d => d = maxDepth
  end.

(** One invocation of the function: the value, the count carried in, the
    depth, and the state (heap and visited set) at that moment. *)
Record call := mkCall {
  c_value : value;
  c_count : nat;
  c_depth : nat;
  c_state : state
}.

(** The top-level call on [v] in heap [h]. *)
Definition top_call (h : heap) (v : value) : call :=
  mkCall v 0 0 (mkState h ∅).

Section CallDefs.
Variables max maxDepth : nat.

(** Running a call to its outcome. *)
Definition exec (c : call) : res ReplacementResult :=
  replaceDogWithCat (budget maxDepth (c_depth c)) (c_value c) max
                    (c_count c) (c_depth c) maxDepth (c_state c).

(** The recursive call made from a call at [depth]. *)
Definition exec_child (depth : nat) (v : value) (c : nat) (s : state)
  : res ReplacementResult :=
  exec (mkCall v c (depth + 1) s).

(** [child_call c c']: running [c] invokes the function on [c'].  The
    caller is within the depth ceiling, is a container not yet visited,
    and has processed the children before [c'] without failure; the
    child starts from the count and state they left. *)
Inductive child_call : call -> call -> Prop :=
| child_item a pre item post cnt depth st racc cnt' st' :
    depth <= maxDepth ->
    st_heap st !! a = Some (CArr (pre ++ item :: post)) ->
    a ∉ st_visited st ->
    loop_items (exec_child depth) pre cnt [] (mark a st) = Ok (racc, cnt') st' ->
    child_call (mkCall (VRef a) cnt depth st)
               (mkCall item cnt' (depth + 1) st')
| child_entry a pre key val post cnt depth st racc cnt' st' :
    depth <= maxDepth ->
    st_heap st !! a = Some (CObj (pre ++ (key, val) :: post)) ->
    a ∉ st_visited st ->
    loop_entries (exec_child depth) pre cnt [] (mark a st) = Ok (racc, cnt') st' ->
    child_call (mkCall (VRef a) cnt depth st)
               (mkCall val cnt' (depth + 1) st').

(** [reaches c c']: [c'] is [c] or one of the calls made, at any depth,
    while [c] runs. *)
Definition reaches : call -> call -> Prop := rtc child_call.

End CallDefs.

(** Every reference is bound: the heap is a closed graph of containers. *)
Definition bound (h : heap) (v : value) : Prop :=
  match v with
  | VRef a => a < length h
  | VScalar _ => True
  end.

Definition closed_container (h : heap) (c : container) : Prop :=
  match c with
  | CArr items => Forall (bound h) items
  | CObj entries => Forall (fun e => bound h e.2) entries
  end.

Definition closed (h : heap) : Prop := Forall (closed_container h) h.

(** The traversal of [v], started with visited set [vis], ended with
    [vis']: [v] unfolds in [h0] to a tree whose containers are all
    different, were not in [vis], and are what [vis'] adds to it. *)
Definition walked (h0 : heap) (v : value) (vis vis' : gset addr) : Prop :=
  exists t l, rep h0 v t l /\ NoDup l /\ fresh_for l vis /\
              vis' = list_to_set l ∪ vis.

(** ** Inputs used below *)

(** A chain of [n + 1] arrays, each the only element of the one before,
    the innermost holding the scalars [inner], which so sit at depth
    [n + 1]. *)
Definition chain_of (inner : list scalar) (n : nat) : heap :=
  map (fun i => CArr [VRef (S i)]) (seq 0 n) ++ [CArr (map VScalar inner)].

Definition chain_tree_of (inner : list scalar) (n : nat) : json :=
  Nat.iter n (fun t => JArr [t]) (JArr (map JScalar inner)).

(** The chain around one ["dog"]. *)
Definition chain (n : nat) : heap := chain_of [SStr "dog"] n.
Definition chain_tree (n : nat) : json := chain_tree_of [SStr "dog"] n.

(** [["dog", c]] where [c] is the chain of 100 arrays around ["dog"]. *)
Definition dog_and_chain_heap : heap := chain 99 ++ [CArr [str "dog"; VRef 0]].
Definition dog_and_chain_tree : json :=
  JArr [JScalar (SStr "dog"); chain_tree 99].

Definition pet_heap : heap := [CObj [("pet", str "dog"); ("name", str "Max")]].
Definition pet_tree : json :=
  JObj [("pet", JScalar (SStr "dog")); ("name", JScalar (SStr "Max"))].

Definition dog_in_dog_heap : heap :=
  [CArr [str "dog"]; CArr [str "dog"; VRef 0]].
Definition dog_in_dog_tree : json :=
  JArr [JScalar (SStr "dog"); JArr [JScalar (SStr "dog")]].

Definition two_dogs_heap : heap := [CArr [str "dog"; str "dog"]].
Definition two_dogs_tree : json :=
  JArr [JScalar (SStr "dog"); JScalar (SStr "dog")].

(** [["dog", "dog", ["x"]]] *)
Definition dogs_then_deep_heap : heap :=
  [CArr [str "x"]; CArr [str "dog"; str "dog"; VRef 0]].
Definition dogs_then_deep_tree : json :=
  JArr [JScalar (SStr "dog"); JScalar (SStr "dog"); JArr [JScalar (SStr "x")]].

Definition self_heap : heap := [CArr [VRef 0]].

(** A ring of 101 arrays: each holds the next, the last holds the first. *)
Definition ring : heap :=
  map (fun i => CArr [VRef (S i mod 101)]) (seq 0 101).

(** [{ pet: "dog", self: <the object itself> }] *)
Definition self_obj_heap : heap :=
  [CObj [("pet", str "dog"); ("self", VRef 0)]].

(** [[x, x]] with [x = []] *)
Definition shared_heap : heap := [CArr []; CArr [VRef 0; VRef 0]].

(** [{ "__proto__": "dog" }], as [JSON.parse] returns it: the key is an
    own property of the input. *)
Definition proto_heap : heap := [CObj [("__proto__", str "dog")]].
Definition proto_tree : json := JObj [("__proto__", JScalar (SStr "dog"))].

(** [{ dog: "pet", cat: "animal" }] *)
Definition dog_key_heap : heap := [CObj [("dog", str "pet"); ("cat", str "animal")]].
Definition dog_key_tree : json :=
  JObj [("dog", JScalar (SStr "pet")); ("cat", JScalar (SStr "animal"))].

(** ** The replacer before the guards

    The first version of [replaceDogWithCat] in the file: the same walk
    with the replacement limit as its only guard, no depth ceiling and no
    visited set.  Its state is the heap alone, and the only thing it
    throws is [ReplacementLimitExceededError(replacementCount, limit)]. *)
Module Unguarded.

Inductive res (A : Type) :=
| Ok (a : A) (h : heap)
| Throw (replacementCount limit : nat)
| Timeout.
Arguments Ok {A} a h.
Arguments Throw {A} replacementCount limit.
Arguments Timeout {A}.

Section Loops.
Variable rec : value -> nat -> heap -> res ReplacementResult.

Fixpoint loop_items (items : list value) (totalCount : nat)
    (result : list value) (h : heap) : res (list value * nat) :=
  match items with
  | [] => Ok (result, totalCount) h
  | item :: rest =>
      match rec item totalCount h with
      | Ok itemResult h' =>
          loop_items rest (replacementCount itemResult)
                     (result ++ [data itemResult]) h'
      | Throw n lim => Throw n lim
      | Timeout => Timeout
      end
  end.

Fixpoint loop_entries (entries : list (string * value)) (totalCount : nat)
    (result : list (string * value)) (h : heap)
    : res (list (string * value) * nat) :=
  match entries with
  | [] => Ok (result, totalCount) h
  | (key, val) :: rest =>
      match rec val totalCount h with
      | Ok valResult h' =>
          loop_entries rest (replacementCount valResult)
                       (obj_set result key (data valResult)) h'
      | Throw n lim => Throw n lim
      | Timeout => Timeout
      end
  end.
End Loops.

Definition return_container (c : container) (totalCount : nat) (h : heap)
  : res ReplacementResult :=
  let '(a, h') := alloc h c in
  Ok (mkResult (VRef a) totalCount) h'.

Fixpoint replaceDogWithCat (fuel : nat) (value : value)
    (maxReplacements currentCount : nat) (h : heap)
    : res ReplacementResult :=
  match fuel with
  | O => Timeout
  | S fuel' =>
    if is_dog value then
      let newCount := currentCount + 1 in
      if decide (maxReplacements < newCount)
      then Throw newCount maxReplacements
      else Ok (mkResult cat newCount) h
    else
      let rec := fun v c h' => replaceDogWithCat fuel' v maxReplacements c h' in
      match value with
      | VRef a =>
          match h !! a with
          | Some (CArr items) =>
              match loop_items rec items currentCount [] h with
              | Ok (result, totalCount) h' =>
                  return_container (CArr result) totalCount h'
              | Throw n lim => Throw n lim
              | Timeout => Timeout
              end
          | Some (CObj entries) =>
              match loop_entries rec entries currentCount [] h with
              | Ok (result, totalCount) h' =>
                  return_container (CObj result) totalCount h'
              | Throw n lim => Throw n lim
              | Timeout => Timeout
              end
          | None => Ok (mkResult value currentCount) h
          end
      | VScalar _ => Ok (mkResult value currentCount) h
      end
  end.

End Unguarded.

(** The outcome of the guarded function, seen by the function without
    guards: the same result in the same heap, the same limit error;
    nothing is said where a guard that only the new function has
    fired. *)
Definition agrees {A} (g : res A) (u : Unguarded.res A) : Prop :=
  match g with
  | Ok a s => u = Unguarded.Ok a (st_heap s)
  | Err (ReplacementLimitExceededError n lim) => u = Unguarded.Throw n lim
  | _ => True
  end.

(** [contains h a b]: the container at [a] has the container at [b] as an
    element or as the value of an entry. *)
Definition contains (h : heap) (a b : addr) : Prop :=
  match h !! a with
  | Some (CArr items) => VRef b ∈ items
  | Some (CObj entries) => VRef b ∈ entries.*2
  | None => False
  end.

(** ** Configuration ([src/config.ts])

    A JavaScript string is its sequence of UTF-16 code units.  A Number
    that holds an integer is that integer. *)
Abbreviation jsstring := (list N) (only parsing).

(** The code units of a string literal of the source (ASCII). *)
Definition js (s : string) : jsstring :=
  map Ascii.N_of_ascii (String.list_ascii_of_string s).

(** White space and line terminators, as [parseInt] strips them from the
    start of its argument. *)
Definition is_ws (c : N) : bool :=
  bool_decide (c ∈ [9; 10; 11; 12; 13; 32; 160; 5760; 8232; 8233; 8239;
                    8287; 12288; 65279]%N)
  || ((8192 <=? c) && (c <=? 8202))%N.

(** The value of a decimal digit. *)
Definition digit_of (c : N) : option Z :=
  if ((48 <=? c) && (c <=? 57))%N then Some (Z.of_N (c - 48)) else None.

Fixpoint skip_ws (s : jsstring) : jsstring :=
  match s with
  | c :: r => if is_ws c then skip_ws r else s
  | [] => []
  end.

(** The integer that the leading digits of [s] denote, continuing [acc]. *)
Fixpoint digits (acc : Z) (s : jsstring) : Z :=
  match s with
  | c :: r =>
      match digit_of c with
      | Some d => digits (10 * acc + d) r
      | None => acc
      end
  | [] => acc
  end.

(** [parseInt(s, 10)]: leading white space is skipped, one sign is
    accepted, the digits up to the first other character are read, and
    without a digit the result is [NaN] ([None]). *)
Definition parseInt (s : jsstring) : option Z :=
  let s1 := skip_ws s in
  let '(sign, s2) :=
    match s1 with
    | 45%N :: r => ((-1)%Z, r)
    | 43%N :: r => (1%Z, r)
    | _ => (1%Z, s1)
    end in
  match s2 with
  | c :: _ =>
      match digit_of c with
      | Some _ => Some (sign * digits 0 s2)%Z
      | None => None
      end
  | [] => None
  end.

(** A Number: an integer, or [NaN] ([None]). *)
Abbreviation number := (option Z) (only parsing).

Record Config := mkConfig {
  port : number;
  maxReplacements : number
}.

(** [process.env.NAME || fallback]: the fallback stands in for a variable
    that is not set and for one that is set to the empty string. *)
Definition env_or (env : gmap string jsstring) (name : string)
    (fallback : jsstring) : jsstring :=
  match env !! name with
  | Some (c :: s) => c :: s
  | _ => fallback
  end.

Definition invalid_port_message : string :=
  "Invalid PORT environment variable. Must be a number between 1 and 65535.".

Definition invalid_max_message : string :=
  "Invalid MAX_REPLACEMENTS environment variable. Must be a positive number.".

Definition isNaN (n : number) : bool :=
  match n with
  | None => true
  | Some _ => false
  end.

(** [n < k] and [n > k]: both false for [NaN]. *)
Definition num_lt (n : number) (k : Z) : bool :=
  match n with
  | Some z => (z <? k)%Z
  | None => false
  end.

Definition num_gt (n : number) (k : Z) : bool :=
  match n with
  | Some z => (k <? z)%Z
  | None => false
  end.

(** [loadConfig()]: [inl] is the message of the [Error] it throws. *)
Definition loadConfig (env : gmap string jsstring) : string + Config :=
  let port := parseInt (env_or env "PORT" (js "3000")) in
  let maxReplacements := parseInt (env_or env "MAX_REPLACEMENTS" (js "100")) in
  if isNaN port || num_lt port 1 || num_gt port 65535
  then inl invalid_port_message
  else if isNaN maxReplacements || num_lt maxReplacements 1
  then inl invalid_max_message
  else inr (mkConfig port maxReplacements).

(** The limit as the count it is compared with in [newCount >
    maxReplacements]; a configuration that [loadConfig] returns holds an
    integer of at least 1 ([loadConfig_valid]). *)
Definition limit_of (n : number) : nat :=
  match n with
  | Some z => Z.to_nat z
  | None => 0
  end.

(** The decimal numeral of [n], the text a variable is set to in order to
    hand [n] to [loadConfig]. *)
Definition numeral (n : N) : jsstring := js (pretty n).

(** The text starts with a decimal digit. *)
Definition head_digit (s : jsstring) : Prop :=
  exists c r d, s = c :: r /\ digit_of c = Some d.

(** Nothing in [junk] continues a numeral: it is empty or starts with a
    code unit that is not a decimal digit. *)
Definition no_digit_ahead (junk : jsstring) : Prop :=
  forall c, head junk = Some c -> digit_of c = None.

(** ** The route handler ([src/routes/replace.ts]) *)

(** A value in a response body: a string, a number, or the data that the
    replacer returned. *)
Inductive field :=
| FStr (s : string)
| FNum (n : nat)
| FData (v : value).

(** What the handler caught and logged with [console.error]. *)
Inductive failure :=
| ReplacerError (e : error)
| ConfigError (message : string).

(** [res.status(status).json(body)], the heap the data of the body lives
    in, and what was logged. *)
Record response := mkResponse {
  status : nat;
  body : list (string * field);
  resp_heap : heap;
  logged : option failure
}.

Definition internal_error (h : heap) (f : failure) : response :=
  mkResponse 500
    [("error", FStr "Internal server error");
     ("message",
      FStr "An unexpected error occurred while processing the request")]
    h (Some f).

Section Handler.
(** The conversion of a Number to a string in a template literal. *)
Variable toString : nat -> string.

(** The [message] that the constructor of each error class passes to
    [Error]. *)
Definition error_message (e : error) : string :=
  match e with
  | ReplacementLimitExceededError n lim =>
      "Replacement limit exceeded: " +:+ toString n +:+
      " replacements (limit: " +:+ toString lim +:+ ")"
  | CircularReferenceError => "Circular reference detected in input data"
  | MaxDepthExceededError d =>
      "Maximum nesting depth exceeded: " +:+ toString d
  end.

(** [replaceHandler(req, res)] for [req.body = body] in heap [h] and the
    environment [env].  [None] stands for the embedding running out of
    budget, which does not happen ([handler_responds]). *)
Definition replaceHandler (env : gmap string jsstring) (h : heap) (body : value)
  : option response :=
  if decide (body = VScalar SUndefined) then
    Some (mkResponse 400
            [("error", FStr "Invalid request");
             ("message",
              FStr "Request body is required and must be valid JSON")]
            h None)
  else
    match loadConfig env with
    | inl message => Some (internal_error h (ConfigError message))
    | inr config =>
        match replace_default h body (limit_of (maxReplacements config)) with
        | Ok result s =>
            Some (mkResponse 200
                    [("data", FData (data result));
                     ("replacements", FNum (replacementCount result))]
                    (st_heap s) None)
        | Err (ReplacementLimitExceededError n lim) =>
            Some (mkResponse 400
                    [("error", FStr "Replacement limit exceeded");
                     ("message",
                      FStr (error_message (ReplacementLimitExceededError n lim)));
                     ("replacements", FNum n);
                     ("limit", FNum lim)]
                    h None)
        | Err e => Some (internal_error h (ReplacerError e))
        | Timeout => None
        end
    end.
End Handler.

(** * Properties *)

(** ** The end-to-end examples of the specification *)

Example ex_dog :
  replace [] (str "dog") 100 100 = Ok (mkResult cat 1) (mkState [] ∅).
Proof. reflexivity. Qed.

Example ex_arr :
  exists s, replace [CArr [str "dog"; str "puppy"; str "dog"]] (VRef 0) 100 100
   = Ok (mkResult (VRef 1) 2) s /\
   st_heap s !! 1 = Some (CArr [cat; str "puppy"; cat]).
Proof. eexists. vm_compute. split; reflexivity. Qed.

Example ex_self :
  replace [CObj [("pet", str "dog"); ("self", VRef 0)]] (VRef 0) 100 100
  = Err CircularReferenceError.
Proof. vm_compute. reflexivity. Qed.

Example ex_pet :
  exists s, replace pet_heap (VRef 0) 100 100 = Ok (mkResult (VRef 1) 1) s /\
   st_heap s !! 1 = Some (CObj [("pet", cat); ("name", str "Max")]).
Proof. eexists. vm_compute. split; reflexivity. Qed.

Example ex_limit :
  replace_default [CArr (replicate 101 (str "dog"))] (VRef 0) 100
  = Err (ReplacementLimitExceededError 101 100).
Proof. vm_compute. reflexivity. Qed.

Example ex_deep :
  replace_default (chain 100) (VRef 0) 100 = Err (MaxDepthExceededError 100).
Proof. vm_compute. reflexivity. Qed.

(** ** The recursion budget *)

Lemma loop_items_ext rec1 rec2 items c acc st :
  (forall v c' s, rec1 v c' s = rec2 v c' s) ->
  loop_items rec1 items c acc st = loop_items rec2 items c acc st.
Proof.
  intros Hext. revert c acc st.
  induction items as [|item rest IH]; intros c acc st; simpl; [done|].
  rewrite Hext. destruct (rec2 item c st); auto.
Qed.

Lemma loop_entries_ext rec1 rec2 entries c acc st :
  (forall v c' s, rec1 v c' s = rec2 v c' s) ->
  loop_entries rec1 entries c acc st = loop_entries rec2 entries c acc st.
Proof.
  intros Hext. revert c acc st.
  induction entries as [|[key val] rest IH]; intros c acc st; simpl; [done|].
  rewrite Hext. destruct (rec2 val c st); auto.
Qed.

Lemma replaceDogWithCat_S fuel v max c depth maxDepth st :
  replaceDogWithCat (S fuel) v max c depth maxDepth st =
    if decide (maxDepth < depth) then Err (MaxDepthExceededError maxDepth)
    else if is_dog v then
      if decide (max < c + 1)
      then Err (ReplacementLimitExceededError (c + 1) max)
      else Ok (mkResult cat (c + 1)) st
    else
      let rec := fun v' c' s =>
        replaceDogWithCat fuel v' max c' (depth + 1) maxDepth s in
      match v with
      | VRef a =>
          match st_heap st !! a with
          | Some (CArr items) =>
              if decide (a ∈ st_visited st) then Err CircularReferenceError
              else
                match loop_items rec items c [] (mark a st) with
                | Ok (result, totalCount) st' =>
                    return_container (CArr result) totalCount st'
                | Err e => Err e
                | Timeout => Timeout
                end
          | Some (CObj entries) =>
              if decide (a ∈ st_visited st) then Err CircularReferenceError
              else
                match loop_entries rec entries c [] (mark a st) with
                | Ok (result, totalCount) st' =>
                    return_container (CObj result) totalCount st'
                | Err e => Err e
                | Timeout => Timeout
                end
          | None => Ok (mkResult v c) st
          end
      | VScalar _ => Ok (mkResult v c) st
      end.
Proof. reflexivity. Qed.

(** Any budget of at least [budget maxDepth depth] gives the same result. *)
Lemma fuel_irrelevant fuel v max c depth maxDepth st :
  budget maxDepth depth <= fuel ->
  replaceDogWithCat fuel v max c depth maxDepth st =
  replaceDogWithCat (budget maxDepth depth) v max c depth maxDepth st.
Proof.
  unfold budget. revert v c depth st.
  induction fuel as [|fuel IH]; intros v c depth st Hf; [lia|].
  rewrite !replaceDogWithCat_S.
  destruct (decide (maxDepth < depth)) as [|Hd]; [done|].
  destruct (is_dog v); [done|].
  assert (Hrec : forall v' c' s,
    replaceDogWithCat fuel v' max c' (depth + 1) maxDepth s =
    replaceDogWithCat (S maxDepth - depth) v' max c' (depth + 1) maxDepth s).
  { intros v' c' s.
    replace (S maxDepth - depth) with (S (S maxDepth - (depth + 1))) by lia.
    apply IH. lia. }
  cbv zeta. destruct v as [s|a]; [done|].
  destruct (st_heap st !! a) as [[items|entries]|]; [| |done].
  - rewrite (loop_items_ext _ _ _ _ _ _ Hrec). done.
  - rewrite (loop_entries_ext _ _ _ _ _ _ Hrec). done.
Qed.

Lemma loop_items_no_timeout rec items c acc st :
  (forall v c' s, rec v c' s <> Timeout) ->
  loop_items rec items c acc st <> Timeout.
Proof.
  intros Hrec. revert c acc st.
  induction items as [|item rest IH]; intros c acc st; simpl; [done|].
  destruct (rec item c st) eqn:E; [apply IH|done|by apply Hrec in E].
Qed.

Lemma loop_entries_no_timeout rec entries c acc st :
  (forall v c' s, rec v c' s <> Timeout) ->
  loop_entries rec entries c acc st <> Timeout.
Proof.
  intros Hrec. revert c acc st.
  induction entries as [|[key val] rest IH]; intros c acc st; simpl; [done|].
  destruct (rec val c st) eqn:E; [apply IH|done|by apply Hrec in E].
Qed.

(** With budget enough for the depth ceiling the embedding always gives
    the function's own outcome, whatever the heap looks like. *)
Lemma no_timeout fuel v max c depth maxDepth st :
  budget maxDepth depth <= fuel ->
  replaceDogWithCat fuel v max c depth maxDepth st <> Timeout.
Proof.
  unfold budget. revert v c depth st.
  induction fuel as [|fuel IH]; intros v c depth st Hf; [lia|].
  rewrite replaceDogWithCat_S.
  destruct (decide (maxDepth < depth)) as [|Hd]; [done|].
  destruct (is_dog v); [by destruct (decide _)|].
  assert (Hrec : forall v' c' s,
    replaceDogWithCat fuel v' max c' (depth + 1) maxDepth s <> Timeout).
  { intros v' c' s. apply IH. lia. }
  cbv zeta. destruct v as [s|a]; [done|].
  destruct (st_heap st !! a) as [[items|entries]|]; [| |done].
  - destruct (decide _); [done|].
    pose proof (loop_items_no_timeout _ items c [] (mark a st) Hrec) as Hl.
    destruct (loop_items _ _ _ _ _) as [[r k] s'| |]; done.
  - destruct (decide _); [done|].
    pose proof (loop_entries_no_timeout _ entries c [] (mark a st) Hrec) as Hl.
    destruct (loop_entries _ _ _ _ _) as [[r k] s'| |]; done.
Qed.

(** ** Unfolding and heap growth *)

Lemma rep_grow h h2 :
  (forall v t l, rep h v t l -> rep (h ++ h2) v t l) /\
  (forall vs ts l, rep_items h vs ts l -> rep_items (h ++ h2) vs ts l) /\
  (forall es tes l, rep_entries h es tes l -> rep_entries (h ++ h2) es tes l).
Proof.
  apply rep_mutind; intros; try (econstructor; eauto; fail).
  - eapply rep_arr; eauto. by apply lookup_app_l_Some.
  - eapply rep_obj; eauto. by apply lookup_app_l_Some.
Qed.

Lemma rep_bound h :
  (forall v t l, rep h v t l -> Forall (fun a => a < length h) l) /\
  (forall vs ts l, rep_items h vs ts l -> Forall (fun a => a < length h) l) /\
  (forall es tes l, rep_entries h es tes l -> Forall (fun a => a < length h) l).
Proof.
  apply rep_mutind; intros; try (by constructor); try (by apply Forall_app).
  - constructor; [by eapply lookup_lt_Some|done].
  - constructor; [by eapply lookup_lt_Some|done].
Qed.

Lemma rep_items_snoc h vs ts l v t l' :
  rep_items h vs ts l -> rep h v t l' ->
  rep_items h (vs ++ [v]) (ts ++ [t]) (l ++ l').
Proof.
  induction 1 as [|v0 vs t0 ts l0 ls H0 Hs IH]; intros Hv; simpl.
  - rewrite <- (app_nil_r l'). by repeat constructor.
  - rewrite <- app_assoc. constructor; auto.
Qed.

Lemma rep_entries_snoc h es tes l k v t l' :
  rep_entries h es tes l -> rep h v t l' ->
  rep_entries h (es ++ [(k, v)]) (tes ++ [(k, t)]) (l ++ l').
Proof.
  induction 1 as [|k0 v0 es t0 tes l0 ls H0 Hs IH]; intros Hv; simpl.
  - rewrite <- (app_nil_r l'). by repeat constructor.
  - rewrite <- app_assoc. constructor; auto.
Qed.

Lemma walk_eq max maxDepth t c depth :
  walk max maxDepth t c depth =
    if decide (maxDepth < depth) then inl (MaxDepthExceededError maxDepth)
    else
      match t with
      | JScalar s =>
          if is_dog_scalar s then
            if decide (max < c + 1)
            then inl (ReplacementLimitExceededError (c + 1) max)
            else inr (JScalar (SStr "cat"), c + 1)
          else inr (t, c)
      | JArr items =>
          match walk_items (fun x c' => walk max maxDepth x c' (depth + 1))
                           items c [] with
          | inr (r, k) => inr (JArr r, k)
          | inl e => inl e
          end
      | JObj entries =>
          match walk_entries (fun x c' => walk max maxDepth x c' (depth + 1))
                             entries c [] with
          | inr (r, k) => inr (JObj r, k)
          | inl e => inl e
          end
      end.
Proof. destruct t; reflexivity. Qed.

(** ** The heap function computes the tree traversal *)

Lemma union_swap (l ls : list addr) (vis : gset addr) :
  list_to_set l ∪ list_to_set ls ∪ vis =@{gset addr}
  list_to_set ls ∪ (list_to_set l ∪ vis).
Proof.
  rewrite (comm_L (∪) (list_to_set l) (list_to_set ls)).
  by rewrite (assoc_L (∪)).
Qed.

Section LoopRefines.
Variable rec : value -> nat -> state -> res ReplacementResult.
Variable wrec : json -> nat -> error + (json * nat).
Hypothesis Hrec : forall v t l c h vis,
  rep h v t l -> NoDup l -> fresh_for l vis ->
  refines (rec v c (mkState h vis)) (wrec t c) h (list_to_set l ∪ vis).

Lemma loop_items_refines items ts ls :
  forall c h vis racc tacc lacc,
  rep_items h items ts ls -> NoDup ls -> fresh_for ls vis ->
  rep_items h racc tacc lacc ->
  refines_items (loop_items rec items c racc (mkState h vis))
                (walk_items wrec ts c tacc) h (list_to_set ls ∪ vis) lacc.
Proof.
  revert ts ls.
  induction items as [|v vs IH];
    intros ts0 ls0 c h vis racc tacc lacc Hitems Hnd Hfr Hacc;
    inversion Hitems as [|? ? t ts l ls Hv Hvs]; subst; simpl.
  - exists racc, [], []. rewrite !app_nil_r, (left_id_L ∅ (∪)).
    repeat split; auto; constructor.
  - apply NoDup_app in Hnd as (Hnd1 & Hdisj & Hnd2).
    assert (Hfr1 : fresh_for l vis).
    { intros a Ha. apply Hfr. set_solver. }
    pose proof (Hrec v t l c h vis Hv Hnd1 Hfr1) as Hr.
    unfold refines in Hr.
    destruct (wrec t c) as [e|[t' c']]; [by rewrite Hr|].
    destruct Hr as (v' & h2 & l' & -> & Hrep' & Hnd' & Hge'). simpl.
    assert (Hacc' : rep_items (h ++ h2) (racc ++ [v']) (tacc ++ [t']) (lacc ++ l')).
    { apply rep_items_snoc; [|done]. by apply rep_grow. }
    assert (Hfr2 : fresh_for ls (list_to_set l ∪ vis)).
    { intros a Ha Hin. apply elem_of_union in Hin as [Hin|Hin].
      - apply elem_of_list_to_set in Hin. by apply (Hdisj a).
      - apply (Hfr a); [set_solver|done]. }
    assert (Hvs' : rep_items (h ++ h2) vs ts ls) by by apply rep_grow.
    specialize (IH ts ls c' (h ++ h2) (list_to_set l ∪ vis) (racc ++ [v'])
                   (tacc ++ [t']) (lacc ++ l') Hvs' Hnd2 Hfr2 Hacc').
    unfold refines_items in *.
    destruct (walk_items wrec ts c' (tacc ++ [t'])) as [e|[ts' c'']]; [done|].
    destruct IH as (vs' & h3 & lnew & -> & Hrep3 & Hnd3 & Hge3).
    exists vs', (h2 ++ h3), (l' ++ lnew).
    rewrite !app_assoc in *. rewrite list_to_set_app_L.
    rewrite (union_swap l ls vis).
    split; [done|]. split; [done|]. split.
    + apply NoDup_app. split; [done|]. split; [|done].
      intros a Ha1 Ha2.
      apply rep_bound in Hrep'. rewrite Forall_forall in Hrep', Hge3.
      specialize (Hrep' a Ha1). specialize (Hge3 a Ha2). lia.
    + apply Forall_app. split; [done|].
      eapply Forall_impl; [exact Hge3|]. intros a. simpl.
      rewrite length_app. lia.
Qed.

Lemma loop_entries_refines entries tes ls :
  forall c h vis racc tacc lacc,
  rep_entries h entries tes ls -> NoDup ls -> fresh_for ls vis ->
  rep_entries h racc tacc lacc ->
  refines_entries (loop_entries rec entries c racc (mkState h vis))
                  (walk_entries wrec tes c tacc) h (list_to_set ls ∪ vis) lacc.
Proof.
  revert tes ls.
  induction entries as [|[k v] vs IH];
    intros ts0 ls0 c h vis racc tacc lacc Hitems Hnd Hfr Hacc;
    inversion Hitems as [|? ? ? t ts l ls Hv Hvs]; subst; simpl.
  - exists racc, [], []. rewrite !app_nil_r, (left_id_L ∅ (∪)).
    repeat split; auto; constructor.
  - apply NoDup_app in Hnd as (Hnd1 & Hdisj & Hnd2).
    assert (Hfr1 : fresh_for l vis).
    { intros a Ha. apply Hfr. set_solver. }
    pose proof (Hrec v t l c h vis Hv Hnd1 Hfr1) as Hr.
    unfold refines in Hr.
    destruct (wrec t c) as [e|[t' c']]; [by rewrite Hr|].
    destruct Hr as (v' & h2 & l' & -> & Hrep' & Hnd' & Hge'). simpl.
    assert (Hfr2 : fresh_for ls (list_to_set l ∪ vis)).
    { intros a Ha Hin. apply elem_of_union in Hin as [Hin|Hin].
      - apply elem_of_list_to_set in Hin. by apply (Hdisj a).
      - apply (Hfr a); [set_solver|done]. }
    assert (Hvs' : rep_entries (h ++ h2) vs ts ls) by by apply rep_grow.
    assert (Hold : rep_entries (h ++ h2) racc tacc lacc) by by apply rep_grow.
    unfold obj_set. destruct (decide (k = "__proto__")) as [Hk|Hk].
    + specialize (IH ts ls c' (h ++ h2) (list_to_set l ∪ vis) racc tacc lacc
                     Hvs' Hnd2 Hfr2 Hold).
      unfold refines_entries in *.
      destruct (walk_entries wrec ts c' tacc) as [e|[ts' c'']]; [done|].
      destruct IH as (vs' & h3 & lnew & -> & Hrep3 & Hnd3 & Hge3).
      exists vs', (h2 ++ h3), lnew.
      rewrite !app_assoc in *. rewrite list_to_set_app_L, (union_swap l ls vis).
      split; [done|]. split; [done|]. split; [done|].
      eapply Forall_impl; [exact Hge3|]. intros a. simpl.
      rewrite length_app. lia.
    + assert (Hacc' : rep_entries (h ++ h2) (racc ++ [(k, v')])
                                  (tacc ++ [(k, t')]) (lacc ++ l')).
      { by apply rep_entries_snoc. }
      specialize (IH ts ls c' (h ++ h2) (list_to_set l ∪ vis) _ _ _
                     Hvs' Hnd2 Hfr2 Hacc').
      unfold refines_entries in *.
      destruct (walk_entries wrec ts c' (tacc ++ [(k, t')])) as [e|[ts' c'']];
        [done|].
      destruct IH as (vs' & h3 & lnew & -> & Hrep3 & Hnd3 & Hge3).
      exists vs', (h2 ++ h3), (l' ++ lnew).
      rewrite !app_assoc in *. rewrite list_to_set_app_L, (union_swap l ls vis).
      split; [done|]. split; [done|]. split.
      * apply NoDup_app. split; [done|]. split; [|done].
        intros a Ha1 Ha2.
        apply rep_bound in Hrep'. rewrite Forall_forall in Hrep', Hge3.
        specialize (Hrep' a Ha1). specialize (Hge3 a Ha2). lia.
      * apply Forall_app. split; [done|].
        eapply Forall_impl; [exact Hge3|]. intros a. simpl.
        rewrite length_app. lia.
Qed.
End LoopRefines.

Lemma is_dog_ref a : is_dog (VRef a) = false.
Proof. reflexivity. Qed.

(** On an input whose containers are all different and not yet visited,
    the heap function does what the tree traversal does on the tree the
    input unfolds to. *)
Lemma walk_refines max maxDepth fuel :
  forall v t l c depth h vis,
  budget maxDepth depth <= fuel ->
  rep h v t l -> NoDup l -> fresh_for l vis ->
  refines (replaceDogWithCat fuel v max c depth maxDepth (mkState h vis))
          (walk max maxDepth t c depth) h (list_to_set l ∪ vis).
Proof.
  unfold budget.
  induction fuel as [|fuel IH]; intros v t l c depth h vis Hf Hrep Hnd Hfr;
    [lia|].
  rewrite replaceDogWithCat_S, walk_eq.
  destruct (decide (maxDepth < depth)) as [|Hd]; [done|].
  assert (Hrec : forall v t l c h vis,
    rep h v t l -> NoDup l -> fresh_for l vis ->
    refines (replaceDogWithCat fuel v max c (depth + 1) maxDepth (mkState h vis))
            (walk max maxDepth t c (depth + 1)) h (list_to_set l ∪ vis)).
  { intros. apply IH; auto. lia. }
  inversion Hrep as [s|a items ts l' Hlk Hitems|a entries tes l' Hlk Hentries];
    subst; cbv zeta.
  - unfold is_dog_scalar.
    destruct (is_dog (VScalar s)).
    + destruct (decide (max < c + 1)); [done|].
      exists cat, [], []. rewrite app_nil_r, list_to_set_nil, (left_id_L ∅ (∪)).
      repeat split; constructor.
    + exists (VScalar s), [], []. rewrite app_nil_r, list_to_set_nil, (left_id_L ∅ (∪)).
      repeat split; constructor.
  - rewrite is_dog_ref. simpl st_heap. rewrite Hlk. simpl st_visited.
    apply NoDup_cons in Hnd as [Hna Hnd].
    destruct (decide (a ∈ vis)) as [Hin|_].
    { exfalso. apply (Hfr a); [left|done]. }
    assert (Hfr' : fresh_for l' ({[a]} ∪ vis)).
    { intros x Hx Hin. apply elem_of_union in Hin as [Hin|Hin].
      - apply elem_of_singleton in Hin. by subst.
      - apply (Hfr x); [by right|done]. }
    pose proof (loop_items_refines
                  (fun v c s => replaceDogWithCat fuel v max c (depth + 1) maxDepth s)
                  (fun x c => walk max maxDepth x c (depth + 1))
                  Hrec items ts l' c h ({[a]} ∪ vis)
                  [] [] [] Hitems Hnd Hfr' (rep_items_nil h)) as Hl.
    unfold mark. simpl st_heap. simpl st_visited.
    unfold refines_items in Hl.
    destruct (walk_items _ ts c []) as [e|[r k]]; [by rewrite Hl|].
    destruct Hl as (vs' & h2 & lnew & -> & Hrep' & Hnd' & Hge'). simpl in Hrep'.
    unfold return_container, alloc. simpl.
    exists (VRef (length (h ++ h2))), (h2 ++ [CArr vs']), (length (h ++ h2) :: lnew).
    rewrite app_assoc.
    replace (list_to_set l' ∪ ({[a]} ∪ vis)) with ({[a]} ∪ list_to_set l' ∪ vis)
      by (rewrite (comm_L (∪) {[a]}), (assoc_L (∪)); done).
    split; [done|]. split; [|split].
    + eapply rep_arr; [apply list_lookup_middle; done|by apply rep_grow].
    + apply NoDup_cons. split; [|done].
      intros Hin. apply rep_bound in Hrep'. rewrite Forall_forall in Hrep'.
      specialize (Hrep' _ Hin). lia.
    + constructor; [rewrite length_app; lia|done].
  - rewrite is_dog_ref. simpl st_heap. rewrite Hlk. simpl st_visited.
    apply NoDup_cons in Hnd as [Hna Hnd].
    destruct (decide (a ∈ vis)) as [Hin|_].
    { exfalso. apply (Hfr a); [left|done]. }
    assert (Hfr' : fresh_for l' ({[a]} ∪ vis)).
    { intros x Hx Hin. apply elem_of_union in Hin as [Hin|Hin].
      - apply elem_of_singleton in Hin. by subst.
      - apply (Hfr x); [by right|done]. }
    pose proof (loop_entries_refines
                  (fun v c s => replaceDogWithCat fuel v max c (depth + 1) maxDepth s)
                  (fun x c => walk max maxDepth x c (depth + 1))
                  Hrec entries tes l' c h ({[a]} ∪ vis)
                  [] [] [] Hentries Hnd Hfr' (rep_entries_nil h)) as Hl.
    unfold mark. simpl st_heap. simpl st_visited.
    unfold refines_entries in Hl.
    destruct (walk_entries _ tes c []) as [e|[r k]]; [by rewrite Hl|].
    destruct Hl as (vs' & h2 & lnew & -> & Hrep' & Hnd' & Hge'). simpl in Hrep'.
    unfold return_container, alloc. simpl.
    exists (VRef (length (h ++ h2))), (h2 ++ [CObj vs']), (length (h ++ h2) :: lnew).
    rewrite app_assoc.
    replace (list_to_set l' ∪ ({[a]} ∪ vis)) with ({[a]} ∪ list_to_set l' ∪ vis)
      by (rewrite (comm_L (∪) {[a]}), (assoc_L (∪)); done).
    split; [done|]. split; [|split].
    + eapply rep_obj; [apply list_lookup_middle; done|by apply rep_grow].
    + apply NoDup_cons. split; [|done].
      intros Hin. apply rep_bound in Hrep'. rewrite Forall_forall in Hrep'.
      specialize (Hrep' _ Hin). lia.
    + constructor; [rewrite length_app; lia|done].
Qed.

(** ** The tree traversal in closed form *)

Lemma max_list_le (l : list nat) (n : nat) :
  max_list l <= n <-> Forall (fun x => x <= n) l.
Proof.
  induction l as [|x l IH]; simpl.
  - split; [constructor|lia].
  - rewrite Forall_cons, <- IH. lia.
Qed.

Section WalkLoops.
Variables (max maxDepth depth : nat).
Hypothesis Hdepth : depth <= maxDepth.
Let wrec := fun x c => walk max maxDepth x c (depth + 1).

Lemma walk_items_spec ts :
  Forall (fun t => forall c d, c <= max ->
            walk_spec max maxDepth t c d (walk max maxDepth t c d)) ts ->
  forall c acc, c <= max ->
  let total := c + sum_list (map countDog ts) in
  (walk_items wrec ts c acc = inr (acc ++ map built ts, total) /\
     max_list (child_depths ts) + depth <= maxDepth /\ total <= max) \/
  (walk_items wrec ts c acc =
     inl (ReplacementLimitExceededError (max + 1) max) /\ max < total) \/
  (walk_items wrec ts c acc = inl (MaxDepthExceededError maxDepth) /\
     maxDepth < max_list (child_depths ts) + depth).
Proof.
  induction 1 as [|t ts Ht Hts IH]; intros c acc Hc; simpl.
  - left. rewrite app_nil_r, Nat.add_0_r. repeat split; [lia|done].
  - unfold wrec at 1 3 5.
    destruct (Ht c (depth + 1) Hc) as [(-> & Hd & Hk)|[(-> & Hk)|(-> & Hd)]].
    + destruct (IH (c + countDog t) (acc ++ [built t]) Hk)
        as [(-> & Hd' & Hk')|[(-> & Hk')|(-> & Hd')]].
      * left. rewrite <- app_assoc. simpl.
        replace (c + countDog t + sum_list (map countDog ts))
          with (c + (countDog t + sum_list (map countDog ts))) by lia.
        repeat split; lia.
      * right; left. split; [done|lia].
      * right; right. split; [done|lia].
    + right; left. split; [done|lia].
    + right; right. split; [done|lia].
Qed.

Lemma walk_entries_spec es :
  Forall (fun e => forall c d, c <= max ->
            walk_spec max maxDepth e.2 c d (walk max maxDepth e.2 c d)) es ->
  forall c acc, c <= max ->
  let total := c + sum_list (map (fun e => countDog e.2) es) in
  let deepest := max_list (map (fun e => S (depthOf e.2)) es) in
  (walk_entries wrec es c acc = inr (acc ++ build_entries es, total) /\
     deepest + depth <= maxDepth /\ total <= max) \/
  (walk_entries wrec es c acc =
     inl (ReplacementLimitExceededError (max + 1) max) /\ max < total) \/
  (walk_entries wrec es c acc = inl (MaxDepthExceededError maxDepth) /\
     maxDepth < deepest + depth).
Proof.
  induction 1 as [|[k t] es Ht Hts IH]; intros c acc Hc; simpl.
  - left. rewrite app_nil_r, Nat.add_0_r. repeat split; [lia|done].
  - unfold wrec at 1 3 5. simpl in Ht.
    destruct (Ht c (depth + 1) Hc) as [(-> & Hd & Hk)|[(-> & Hk)|(-> & Hd)]].
    + destruct (decide (k = "__proto__")) as [Hp|Hp].
      * destruct (IH (c + countDog t) acc Hk)
          as [(-> & Hd' & Hk')|[(-> & Hk')|(-> & Hd')]].
        -- left.
           replace (c + countDog t + sum_list (map (fun e => countDog e.2) es))
             with (c + (countDog t + sum_list (map (fun e => countDog e.2) es)))
             by lia.
           repeat split; lia.
        -- right; left. split; [done|lia].
        -- right; right. split; [done|lia].
      * destruct (IH (c + countDog t) (acc ++ [(k, built t)]) Hk)
          as [(-> & Hd' & Hk')|[(-> & Hk')|(-> & Hd')]].
        -- left. rewrite <- app_assoc. simpl.
           replace (c + countDog t + sum_list (map (fun e => countDog e.2) es))
             with (c + (countDog t + sum_list (map (fun e => countDog e.2) es)))
             by lia.
           repeat split; lia.
        -- right; left. split; [done|lia].
        -- right; right. split; [done|lia].
    + right; left. split; [done|lia].
    + right; right. split; [done|lia].
Qed.
End WalkLoops.

Lemma walk_cases max maxDepth t :
  forall c depth, c <= max ->
  walk_spec max maxDepth t c depth (walk max maxDepth t c depth).
Proof.
  induction t as [s|ts IH|es IH] using json_ind'; intros c depth Hc;
    rewrite walk_eq; unfold walk_spec.
  - destruct (decide (maxDepth < depth)) as [Hd|Hd].
    { right; right. simpl. split; [done|lia]. }
    simpl. destruct (is_dog_scalar s).
    + destruct (decide (max < c + 1)) as [Hk|Hk].
      * right; left. split; [|lia]. do 2 f_equal. lia.
      * left. repeat split; lia.
    + left. rewrite Nat.add_0_r. repeat split; lia.
  - destruct (decide (maxDepth < depth)) as [Hd|Hd].
    { right; right. split; [done|lia]. }
    destruct (walk_items_spec max maxDepth depth ltac:(lia) ts IH c [] Hc)
      as [(-> & Hd' & Hk')|[(-> & Hk')|(-> & Hd')]]; simpl.
    + left. repeat split; [|done]. exact Hd'.
    + right; left. done.
    + right; right. done.
  - destruct (decide (maxDepth < depth)) as [Hd|Hd].
    { right; right. split; [done|lia]. }
    destruct (walk_entries_spec max maxDepth depth ltac:(lia) es IH c [] Hc)
      as [(-> & Hd' & Hk')|[(-> & Hk')|(-> & Hd')]]; simpl.
    + left. repeat split; [|done]. exact Hd'.
    + right; left. done.
    + right; right. done.
Qed.

(** ** What the built tree looks like *)

Lemma is_dog_cat : is_dog_scalar (SStr "cat") = false.
Proof. reflexivity. Qed.

Lemma countDog_built t : countDog (built t) = 0.
Proof.
  induction t as [s|ts IH|es IH] using json_ind'; simpl.
  - destruct (is_dog_scalar s) eqn:E; simpl; [done|by rewrite E].
  - induction IH as [|t ts Ht _ IHts]; simpl; [done|]. by rewrite Ht, IHts.
  - induction IH as [|[k t] es Ht _ IHes]; simpl; [done|].
    destruct (decide (k = "__proto__")); simpl; [done|].
    simpl in Ht. by rewrite Ht, IHes.
Qed.

Lemma depthOf_built t : depthOf (built t) <= depthOf t.
Proof.
  induction t as [s|ts IH|es IH] using json_ind'; simpl.
  - by destruct (is_dog_scalar s).
  - induction IH as [|t ts Ht _ IHts]; simpl; [done|]. lia.
  - induction IH as [|[k t] es Ht _ IHes]; simpl; [done|].
    destruct (decide (k = "__proto__")); simpl in *; lia.
Qed.

Lemma plain_keys_built t : plain_keys (built t).
Proof.
  induction t as [s|ts IH|es IH] using json_ind'; simpl.
  - by destruct (is_dog_scalar s).
  - induction IH as [|t ts Ht _ IHts]; simpl; [done|]. by split.
  - induction IH as [|[k t] es Ht _ IHes]; simpl; [done|].
    destruct (decide (k = "__proto__")); simpl; [done|]. by repeat split.
Qed.

(** Without a ["__proto__"] key the code builds what the specification
    describes. *)
Lemma built_plain t : plain_keys t -> built t = cat_for_dog t.
Proof.
  induction t as [s|ts IH|es IH] using json_ind'; simpl; [done| |].
  - intros Hp. f_equal.
    induction IH as [|t ts Ht _ IHts]; simpl; [done|].
    destruct Hp as [Hp1 Hp2]. by rewrite Ht, IHts.
  - intros Hp. f_equal.
    induction IH as [|[k t] es Ht _ IHes]; simpl; [done|].
    destruct Hp as (Hk & Hp1 & Hp2). simpl in *.
    destruct (decide (k = "__proto__")); [done|]. simpl.
    by rewrite Ht, IHes.
Qed.

(** A tree without a match is a fixed point of the specified
    transformation. *)
Lemma cat_for_dog_id t : countDog t = 0 -> cat_for_dog t = t.
Proof.
  induction t as [s|ts IH|es IH] using json_ind'; simpl.
  - by destruct (is_dog_scalar s).
  - intros Hc. f_equal.
    induction IH as [|t ts Ht _ IHts]; simpl in *; [done|].
    rewrite Ht, IHts; [done|lia|lia].
  - intros Hc. f_equal.
    induction IH as [|[k t] es Ht _ IHes]; simpl in *; [done|].
    rewrite Ht, IHes; [done|lia|lia].
Qed.

(** The specified transformation keeps lengths and keys. *)
Lemma cat_for_dog_keys t : keys (cat_for_dog t) = keys t.
Proof.
  destruct t as [s|ts|es]; simpl; [by destruct (is_dog_scalar s)|done|].
  induction es as [|[k t] es IH]; simpl; [done|]. by f_equal.
Qed.

(** ** What every normal return guarantees *)

Lemma advances_refl max c st : advances max c st c st.
Proof.
  repeat split; [done..|]. exists []. by rewrite app_nil_r.
Qed.

Lemma advances_trans max c1 st1 c2 st2 c3 st3 :
  advances max c1 st1 c2 st2 -> advances max c2 st2 c3 st3 ->
  advances max c1 st1 c3 st3.
Proof.
  intros (H1 & H2 & H3 & h2 & H4) (H1' & H2' & H3' & h3 & H4').
  repeat split; [lia|auto|set_solver|].
  exists (h2 ++ h3). by rewrite H4', H4, app_assoc.
Qed.

Section LoopAdvances.
Variable max : nat.
Variable rec : value -> nat -> state -> res ReplacementResult.
Hypothesis Hrec : forall v c st r st',
  rec v c st = Ok r st' -> advances max c st (replacementCount r) st'.

Lemma loop_items_advances items c acc st res k st' :
  loop_items rec items c acc st = Ok (res, k) st' -> advances max c st k st'.
Proof.
  revert c acc st.
  induction items as [|item rest IH]; intros c acc st; simpl.
  - intros [= <- <- <-]. apply advances_refl.
  - destruct (rec item c st) as [r s| |] eqn:E; [|done..].
    intros Hl. eapply advances_trans; [by apply Hrec in E|by eapply IH].
Qed.

Lemma loop_entries_advances entries c acc st res k st' :
  loop_entries rec entries c acc st = Ok (res, k) st' -> advances max c st k st'.
Proof.
  revert c acc st.
  induction entries as [|[key val] rest IH]; intros c acc st; simpl.
  - intros [= <- <- <-]. apply advances_refl.
  - destruct (rec val c st) as [r s| |] eqn:E; [|done..].
    intros Hl. eapply advances_trans; [by apply Hrec in E|by eapply IH].
Qed.
End LoopAdvances.

Lemma advances_mark max a c st k st' :
  advances max c (mark a st) k st' -> advances max c st k st' /\ a ∈ st_visited st'.
Proof.
  intros (H1 & H2 & H3 & H4). simpl in *.
  split.
  - repeat split; [done|done| |done].
    intros x Hx. apply H3, elem_of_union. by right.
  - apply H3, elem_of_union. left. by apply elem_of_singleton.
Qed.

Lemma advances_return max c st k st' cont r st'' :
  advances max c st k st' ->
  return_container cont k st' = Ok r st'' ->
  advances max c st (replacementCount r) st'' /\
  st_visited st'' = st_visited st'.
Proof.
  intros (H1 & H2 & H3 & h2 & H4). unfold return_container, alloc.
  intros [= <- <-]. simpl. split; [|done].
  repeat split; [done..|]. exists (h2 ++ [cont]). by rewrite H4, app_assoc.
Qed.

Lemma ok_advances max maxDepth fuel :
  forall v c depth st r st',
  replaceDogWithCat fuel v max c depth maxDepth st = Ok r st' ->
  advances max c st (replacementCount r) st'.
Proof.
  induction fuel as [|fuel IH]; intros v c depth st r st'; [done|].
  rewrite replaceDogWithCat_S.
  destruct (decide (maxDepth < depth)); [done|].
  destruct (is_dog v).
  { destruct (decide (max < c + 1)); [done|]. intros [= <- <-]. simpl.
    repeat split; [lia|lia|done|]. exists []. by rewrite app_nil_r. }
  cbv zeta.
  destruct v as [s|a]; [intros [= <- <-]; apply advances_refl|].
  destruct (st_heap st !! a) as [[items|entries]|];
    [| |intros [= <- <-]; apply advances_refl].
  - destruct (decide _); [done|].
    destruct (loop_items _ _ _ _ _) as [[res k] s| |] eqn:E; [|done..].
    intros Hret.
    eapply loop_items_advances in E; [|intros; by eapply IH].
    apply advances_mark in E as [E _].
    by eapply advances_return in Hret as [Hret _].
  - destruct (decide _); [done|].
    destruct (loop_entries _ _ _ _ _) as [[res k] s| |] eqn:E; [|done..].
    intros Hret.
    eapply loop_entries_advances in E; [|intros; by eapply IH].
    apply advances_mark in E as [E _].
    by eapply advances_return in Hret as [Hret _].
Qed.

(** ** What every error carries *)

Section LoopPayload.
Variables max maxDepth : nat.
Variable rec : value -> nat -> state -> res ReplacementResult.
Hypothesis Hadv : forall v c st r st',
  rec v c st = Ok r st' -> advances max c st (replacementCount r) st'.
Hypothesis Hrec : forall v c st e,
  c <= max -> rec v c st = Err e -> payload_ok max maxDepth e.

Lemma loop_items_payload items c acc st e :
  c <= max -> loop_items rec items c acc st = Err e -> payload_ok max maxDepth e.
Proof.
  revert c acc st.
  induction items as [|item rest IH]; intros c acc st Hc; simpl; [done|].
  destruct (rec item c st) as [r s|e'|] eqn:E; [| |done].
  - apply Hadv in E as (_ & Hle & _). apply IH. auto.
  - intros [= <-]. by eapply Hrec.
Qed.

Lemma loop_entries_payload entries c acc st e :
  c <= max -> loop_entries rec entries c acc st = Err e ->
  payload_ok max maxDepth e.
Proof.
  revert c acc st.
  induction entries as [|[key val] rest IH]; intros c acc st Hc; simpl; [done|].
  destruct (rec val c st) as [r s|e'|] eqn:E; [| |done].
  - apply Hadv in E as (_ & Hle & _). apply IH. auto.
  - intros [= <-]. by eapply Hrec.
Qed.
End LoopPayload.

Lemma err_payload max maxDepth fuel :
  forall v c depth st e,
  c <= max ->
  replaceDogWithCat fuel v max c depth maxDepth st = Err e ->
  payload_ok max maxDepth e.
Proof.
  induction fuel as [|fuel IH]; intros v c depth st e Hc; [done|].
  rewrite replaceDogWithCat_S.
  destruct (decide (maxDepth < depth)); [by intros [= <-]|].
  destruct (is_dog v).
  { destruct (decide (max < c + 1)); [|done]. intros [= <-]. simpl.
    split; [lia|done]. }
  cbv zeta.
  destruct v as [s|a]; [done|].
  destruct (st_heap st !! a) as [[items|entries]|]; [| |done].
  - destruct (decide _); [by intros [= <-]|].
    destruct (loop_items _ _ _ _ _) as [[res k] s|e'|] eqn:E; [done| |done].
    intros [= <-].
    eapply loop_items_payload in E; eauto.
    intros; by eapply ok_advances.
  - destruct (decide _); [by intros [= <-]|].
    destruct (loop_entries _ _ _ _ _) as [[res k] s|e'|] eqn:E; [done| |done].
    intros [= <-].
    eapply loop_entries_payload in E; eauto.
    intros; by eapply ok_advances.
Qed.

(** ** The calls of one traversal *)

Lemma loop_items_app rec pre post c acc st :
  loop_items rec (pre ++ post) c acc st =
    match loop_items rec pre c acc st with
    | Ok (racc, c') st' => loop_items rec post c' racc st'
    | Err e => Err e
    | Timeout => Timeout
    end.
Proof.
  revert c acc st. induction pre as [|x pre IH]; intros c acc st; simpl; [done|].
  destruct (rec x c st); auto.
Qed.

Lemma loop_entries_app rec pre post c acc st :
  loop_entries rec (pre ++ post) c acc st =
    match loop_entries rec pre c acc st with
    | Ok (racc, c') st' => loop_entries rec post c' racc st'
    | Err e => Err e
    | Timeout => Timeout
    end.
Proof.
  revert c acc st.
  induction pre as [|[k x] pre IH]; intros c acc st; simpl; [done|].
  destruct (rec x c st); auto.
Qed.

Section Calls.
Variables max maxDepth : nat.

Lemma exec_eq v c depth st :
  exec max maxDepth (mkCall v c depth st) =
    if decide (maxDepth < depth) then Err (MaxDepthExceededError maxDepth)
    else if is_dog v then
      if decide (max < c + 1)
      then Err (ReplacementLimitExceededError (c + 1) max)
      else Ok (mkResult cat (c + 1)) st
    else
      match v with
      | VRef a =>
          match st_heap st !! a with
          | Some (CArr items) =>
              if decide (a ∈ st_visited st) then Err CircularReferenceError
              else
                match loop_items (exec_child max maxDepth depth) items c [] (mark a st) with
                | Ok (result, totalCount) st' =>
                    return_container (CArr result) totalCount st'
                | Err e => Err e
                | Timeout => Timeout
                end
          | Some (CObj entries) =>
              if decide (a ∈ st_visited st) then Err CircularReferenceError
              else
                match loop_entries (exec_child max maxDepth depth) entries c [] (mark a st) with
                | Ok (result, totalCount) st' =>
                    return_container (CObj result) totalCount st'
                | Err e => Err e
                | Timeout => Timeout
                end
          | None => Ok (mkResult v c) st
          end
      | VScalar _ => Ok (mkResult v c) st
      end.
Proof.
  unfold exec, budget. cbn [c_value c_count c_depth c_state].
  rewrite replaceDogWithCat_S.
  destruct (decide (maxDepth < depth)) as [|Hd]; [done|].
  destruct (is_dog v); [done|]. cbv zeta.
  assert (Hrec : forall v' c' s,
    replaceDogWithCat (S maxDepth - depth) v' max c' (depth + 1) maxDepth s =
    exec_child max maxDepth depth v' c' s).
  { intros. unfold exec_child, exec, budget.
    cbn [c_value c_count c_depth c_state].
    by replace (S (S maxDepth - (depth + 1))) with (S maxDepth - depth) by lia. }
  destruct v as [s|a]; [done|].
  destruct (st_heap st !! a) as [[items|entries]|]; [| |done].
  - by rewrite (loop_items_ext _ _ _ _ _ _ Hrec).
  - by rewrite (loop_entries_ext _ _ _ _ _ _ Hrec).
Qed.

Lemma exec_total c : exec max maxDepth c <> Timeout.
Proof. by apply no_timeout. Qed.

Lemma exec_advances c r st' :
  exec max maxDepth c = Ok r st' ->
  advances max (c_count c) (c_state c) (replacementCount r) st'.
Proof. apply ok_advances. Qed.

Lemma exec_child_advances depth v c st r st' :
  exec_child max maxDepth depth v c st = Ok r st' ->
  advances max c st (replacementCount r) st'.
Proof. intros H. by apply exec_advances in H. Qed.

(** Depth goes up by exactly one per descent, and the container is in
    the visited set of every call made for its children. *)
Lemma child_call_inv c c' :
  child_call max maxDepth c c' ->
  c_depth c' = c_depth c + 1 /\
  (exists a, c_value c = VRef a /\ a ∈ st_visited (c_state c')) /\
  advances max (c_count c) (c_state c) (c_count c') (c_state c').
Proof.
  destruct 1 as [a pre item post cnt depth st racc cnt' st' Hd Hlk Hv Hl
                |a pre key val post cnt depth st racc cnt' st' Hd Hlk Hv Hl];
    simpl.
  - apply loop_items_advances with (max := max) in Hl;
      [|apply exec_child_advances].
    apply advances_mark in Hl as [Hl Ha]. split; [done|]. split; [|done].
    by exists a.
  - apply loop_entries_advances with (max := max) in Hl;
      [|apply exec_child_advances].
    apply advances_mark in Hl as [Hl Ha]. split; [done|]. split; [|done].
    by exists a.
Qed.

(** A failure of a child is the failure of its caller. *)
Lemma child_call_err c c' e :
  child_call max maxDepth c c' -> exec max maxDepth c' = Err e -> exec max maxDepth c = Err e.
Proof.
  destruct 1 as [a pre item post cnt depth st racc cnt' st' Hd Hlk Hv Hl
                |a pre key val post cnt depth st racc cnt' st' Hd Hlk Hv Hl];
    intros He; rewrite exec_eq, is_dog_ref, Hlk.
  - destruct (decide (maxDepth < depth)); [lia|].
    destruct (decide (a ∈ st_visited st)); [done|].
    rewrite loop_items_app, Hl. simpl.
    unfold exec_child at 1. by rewrite He.
  - destruct (decide (maxDepth < depth)); [lia|].
    destruct (decide (a ∈ st_visited st)); [done|].
    rewrite loop_entries_app, Hl. simpl.
    unfold exec_child at 1. by rewrite He.
Qed.

(** A caller that returns has seen every child return, with a count
    between the one it carried in and the one it returns. *)
Lemma child_call_ok c c' r s :
  child_call max maxDepth c c' -> exec max maxDepth c = Ok r s ->
  exists r' s', exec max maxDepth c' = Ok r' s' /\
    advances max (c_count c') (c_state c') (replacementCount r') s' /\
    advances max (replacementCount r') s' (replacementCount r) s.
Proof.
  destruct 1 as [a pre item post cnt depth st racc cnt' st' Hd Hlk Hv Hl
                |a pre key val post cnt depth st racc cnt' st' Hd Hlk Hv Hl];
    rewrite exec_eq, is_dog_ref, Hlk.
  - destruct (decide (maxDepth < depth)); [lia|].
    destruct (decide (a ∈ st_visited st)); [done|].
    rewrite loop_items_app, Hl. simpl.
    unfold exec_child at 1.
    destruct (exec max maxDepth (mkCall item cnt' (depth + 1) st')) as [r' s'| |] eqn:E;
      [|done..].
    destruct (loop_items _ post _ _ _) as [[res k] s2| |] eqn:E2; [|done..].
    intros Hret. exists r', s'. split; [done|]. split.
    + by apply exec_advances in E.
    + apply loop_items_advances with (max := max) in E2;
        [|apply exec_child_advances].
      by eapply advances_return in Hret as [Hret _].
  - destruct (decide (maxDepth < depth)); [lia|].
    destruct (decide (a ∈ st_visited st)); [done|].
    rewrite loop_entries_app, Hl. simpl.
    unfold exec_child at 1.
    destruct (exec max maxDepth (mkCall val cnt' (depth + 1) st')) as [r' s'| |] eqn:E;
      [|done..].
    destruct (loop_entries _ post _ _ _) as [[res k] s2| |] eqn:E2; [|done..].
    intros Hret. exists r', s'. split; [done|]. split.
    + by apply exec_advances in E.
    + apply loop_entries_advances with (max := max) in E2;
        [|apply exec_child_advances].
      by eapply advances_return in Hret as [Hret _].
Qed.

Lemma reaches_err c c' e :
  reaches max maxDepth c c' -> exec max maxDepth c' = Err e -> exec max maxDepth c = Err e.
Proof.
  induction 1 as [c|c1 c2 c3 H12 H23 IH]; [done|].
  intros He. eapply child_call_err; eauto.
Qed.

Lemma reaches_advances c c' :
  reaches max maxDepth c c' ->
  c_depth c <= c_depth c' /\
  advances max (c_count c) (c_state c) (c_count c') (c_state c').
Proof.
  induction 1 as [c|c1 c2 c3 H12 H23 [IHd IHa]].
  - split; [done|apply advances_refl].
  - apply child_call_inv in H12 as (Hd & _ & Ha).
    split; [lia|by eapply advances_trans].
Qed.

Lemma reaches_ok c c' r s :
  reaches max maxDepth c c' -> exec max maxDepth c = Ok r s ->
  exists r' s', exec max maxDepth c' = Ok r' s' /\
    advances max (c_count c') (c_state c') (replacementCount r') s' /\
    advances max (replacementCount r') s' (replacementCount r) s.
Proof.
  intros Hreach. revert r s.
  induction Hreach as [c|c1 c2 c3 H12 H23 IH]; intros r s Hok.
  - exists r, s. split; [done|]. split; [by apply exec_advances|].
    apply advances_refl.
  - destruct (child_call_ok _ _ _ _ H12 Hok) as (r2 & s2 & E2 & A2 & A2').
    destruct (IH _ _ E2) as (r3 & s3 & E3 & A3 & A3').
    exists r3, s3. split; [done|]. split; [done|].
    by eapply advances_trans.
Qed.
End Calls.

Lemma exec_top max maxDepth h v :
  exec max maxDepth (top_call h v) = replace h v max maxDepth.
Proof. reflexivity. Qed.

Lemma reaches_top_count max maxDepth h v c :
  reaches max maxDepth (top_call h v) c -> c_count c <= max.
Proof.
  intros H. apply reaches_advances in H as (_ & _ & Hle & _).
  apply Hle. simpl. lia.
Qed.

(** ** The count carried in only shifts the count returned *)

Section LoopShift.
Variable rec : value -> nat -> state -> res ReplacementResult.
Hypothesis Hrec : forall v c1 c2 st r1 s1 r2 s2,
  rec v c1 st = Ok r1 s1 -> rec v c2 st = Ok r2 s2 ->
  data r1 = data r2 /\ s1 = s2 /\
  replacementCount r1 + c2 = replacementCount r2 + c1.

Lemma loop_items_shift items c1 c2 acc st res1 k1 s1 res2 k2 s2 :
  loop_items rec items c1 acc st = Ok (res1, k1) s1 ->
  loop_items rec items c2 acc st = Ok (res2, k2) s2 ->
  res1 = res2 /\ s1 = s2 /\ k1 + c2 = k2 + c1.
Proof.
  revert c1 c2 acc st.
  induction items as [|item rest IH]; intros c1 c2 acc st; simpl.
  - intros [= <- <- <-] [= <- <- <-]. repeat split; lia.
  - destruct (rec item c1 st) as [r1 t1| |] eqn:E1; [|done..].
    destruct (rec item c2 st) as [r2 t2| |] eqn:E2; [|done..].
    destruct (Hrec _ _ _ _ _ _ _ _ E1 E2) as (Hd & -> & Hk).
    rewrite Hd. intros H1 H2.
    destruct (IH _ _ _ _ H1 H2) as (? & ? & ?). repeat split; [done..|lia].
Qed.

Lemma loop_entries_shift entries c1 c2 acc st res1 k1 s1 res2 k2 s2 :
  loop_entries rec entries c1 acc st = Ok (res1, k1) s1 ->
  loop_entries rec entries c2 acc st = Ok (res2, k2) s2 ->
  res1 = res2 /\ s1 = s2 /\ k1 + c2 = k2 + c1.
Proof.
  revert c1 c2 acc st.
  induction entries as [|[key val] rest IH]; intros c1 c2 acc st; simpl.
  - intros [= <- <- <-] [= <- <- <-]. repeat split; lia.
  - destruct (rec val c1 st) as [r1 t1| |] eqn:E1; [|done..].
    destruct (rec val c2 st) as [r2 t2| |] eqn:E2; [|done..].
    destruct (Hrec _ _ _ _ _ _ _ _ E1 E2) as (Hd & -> & Hk).
    rewrite Hd. intros H1 H2.
    destruct (IH _ _ _ _ H1 H2) as (? & ? & ?). repeat split; [done..|lia].
Qed.
End LoopShift.

Lemma ok_shift max maxDepth fuel :
  forall v c1 c2 depth st r1 s1 r2 s2,
  replaceDogWithCat fuel v max c1 depth maxDepth st = Ok r1 s1 ->
  replaceDogWithCat fuel v max c2 depth maxDepth st = Ok r2 s2 ->
  data r1 = data r2 /\ s1 = s2 /\
  replacementCount r1 + c2 = replacementCount r2 + c1.
Proof.
  induction fuel as [|fuel IH]; intros v c1 c2 depth st r1 s1 r2 s2; [done|].
  rewrite !replaceDogWithCat_S.
  destruct (decide (maxDepth < depth)); [done|].
  destruct (is_dog v).
  { destruct (decide (max < c1 + 1)); [done|].
    destruct (decide (max < c2 + 1)); [done|].
    intros [= <- <-] [= <- <-]. simpl. repeat split; lia. }
  cbv zeta.
  destruct v as [s|a];
    [intros [= <- <-] [= <- <-]; simpl; repeat split; lia|].
  destruct (st_heap st !! a) as [[items|entries]|];
    [| |intros [= <- <-] [= <- <-]; simpl; repeat split; lia].
  - destruct (decide _); [done|].
    destruct (loop_items _ _ c1 _ _) as [[res1 k1] t1| |] eqn:E1; [|done..].
    destruct (loop_items _ _ c2 _ _) as [[res2 k2] t2| |] eqn:E2; [|done..].
    destruct (loop_items_shift _ (fun v c1 c2 st => IH v c1 c2 (depth + 1) st)
                _ _ _ _ _ _ _ _ _ _ _ E1 E2) as (-> & -> & Hk).
    unfold return_container, alloc. intros [= <- <-] [= <- <-]. simpl.
    repeat split; lia.
  - destruct (decide _); [done|].
    destruct (loop_entries _ _ c1 _ _) as [[res1 k1] t1| |] eqn:E1; [|done..].
    destruct (loop_entries _ _ c2 _ _) as [[res2 k2] t2| |] eqn:E2; [|done..].
    destruct (loop_entries_shift _ (fun v c1 c2 st => IH v c1 c2 (depth + 1) st)
                _ _ _ _ _ _ _ _ _ _ _ E1 E2) as (-> & -> & Hk).
    unfold return_container, alloc. intros [= <- <-] [= <- <-]. simpl.
    repeat split; lia.
Qed.

(** ** A call that returns has walked a tree *)

Section OkTree.
Variable h0 : heap.
Hypothesis Hclosed : closed h0.

Section Loop.
Variable max : nat.
Variable rec : value -> nat -> state -> res ReplacementResult.
Hypothesis Hadv : forall v c st r st',
  rec v c st = Ok r st' -> advances max c st (replacementCount r) st'.
Hypothesis Hrec : forall v c st r st',
  bound h0 v -> (exists h2, st_heap st = h0 ++ h2) ->
  rec v c st = Ok r st' -> walked h0 v (st_visited st) (st_visited st').

Lemma loop_items_walked items c acc st res k st' :
  Forall (bound h0) items -> (exists h2, st_heap st = h0 ++ h2) ->
  loop_items rec items c acc st = Ok (res, k) st' ->
  exists ts ls, rep_items h0 items ts ls /\ NoDup ls /\
    fresh_for ls (st_visited st) /\
    st_visited st' = list_to_set ls ∪ st_visited st.
Proof.
  revert c acc st.
  induction items as [|item rest IH]; intros c acc st Hb Hh; simpl.
  - intros [= <- <- <-]. exists [], []. rewrite list_to_set_nil, (left_id_L ∅ (∪)).
    repeat split; [constructor|constructor|by intros ? ?%elem_of_nil].
  - apply Forall_cons in Hb as [Hb1 Hb2].
    destruct (rec item c st) as [r s| |] eqn:E; [|done..]. intros Hl.
    destruct (Hrec _ _ _ _ _ Hb1 Hh E) as (t & l & Hrep & Hnd & Hfr & Hvis).
    apply Hadv in E as (_ & _ & _ & h3 & Hheap).
    destruct Hh as [h2 Hh].
    destruct (IH _ _ _ Hb2 ltac:(exists (h2 ++ h3); by rewrite Hheap, Hh, app_assoc) Hl)
      as (ts & ls & Hreps & Hnds & Hfrs & Hviss).
    exists (t :: ts), (l ++ ls). split; [by constructor|]. split; [|split].
    + apply NoDup_app. split; [done|]. split; [|done].
      intros x Hx Hxs. apply (Hfrs x Hxs). rewrite Hvis.
      apply elem_of_union. left. by apply elem_of_list_to_set.
    + intros x Hx Hin. apply elem_of_app in Hx as [Hx|Hx].
      * by apply (Hfr x).
      * apply (Hfrs x Hx). rewrite Hvis. apply elem_of_union. by right.
    + by rewrite Hviss, Hvis, list_to_set_app_L, union_swap.
Qed.

Lemma loop_entries_walked entries c acc st res k st' :
  Forall (fun e => bound h0 e.2) entries -> (exists h2, st_heap st = h0 ++ h2) ->
  loop_entries rec entries c acc st = Ok (res, k) st' ->
  exists ts ls, rep_entries h0 entries ts ls /\ NoDup ls /\
    fresh_for ls (st_visited st) /\
    st_visited st' = list_to_set ls ∪ st_visited st.
Proof.
  revert c acc st.
  induction entries as [|[key val] rest IH]; intros c acc st Hb Hh; simpl.
  - intros [= <- <- <-]. exists [], []. rewrite list_to_set_nil, (left_id_L ∅ (∪)).
    repeat split; [constructor|constructor|by intros ? ?%elem_of_nil].
  - apply Forall_cons in Hb as [Hb1 Hb2]. simpl in Hb1.
    destruct (rec val c st) as [r s| |] eqn:E; [|done..]. intros Hl.
    destruct (Hrec _ _ _ _ _ Hb1 Hh E) as (t & l & Hrep & Hnd & Hfr & Hvis).
    apply Hadv in E as (_ & _ & _ & h3 & Hheap).
    destruct Hh as [h2 Hh].
    destruct (IH _ _ _ Hb2 ltac:(exists (h2 ++ h3); by rewrite Hheap, Hh, app_assoc) Hl)
      as (ts & ls & Hreps & Hnds & Hfrs & Hviss).
    exists ((key, t) :: ts), (l ++ ls). split; [by constructor|]. split; [|split].
    + apply NoDup_app. split; [done|]. split; [|done].
      intros x Hx Hxs. apply (Hfrs x Hxs). rewrite Hvis.
      apply elem_of_union. left. by apply elem_of_list_to_set.
    + intros x Hx Hin. apply elem_of_app in Hx as [Hx|Hx].
      * by apply (Hfr x).
      * apply (Hfrs x Hx). rewrite Hvis. apply elem_of_union. by right.
    + by rewrite Hviss, Hvis, list_to_set_app_L, union_swap.
Qed.
End Loop.
End OkTree.

Lemma ok_walked h0 max maxDepth fuel :
  closed h0 ->
  forall v c depth st r st',
  bound h0 v -> (exists h2, st_heap st = h0 ++ h2) ->
  replaceDogWithCat fuel v max c depth maxDepth st = Ok r st' ->
  walked h0 v (st_visited st) (st_visited st').
Proof.
  intros Hcl.
  induction fuel as [|fuel IH]; intros v c depth st r st' Hb Hh; [done|].
  rewrite replaceDogWithCat_S.
  destruct (decide (maxDepth < depth)); [done|].
  destruct v as [s|a].
  { intros Hok. assert (st' = st) as ->.
    { destruct (is_dog (VScalar s)); [destruct (decide _)|]; congruence. }
    exists (JScalar s), []. rewrite list_to_set_nil, (left_id_L ∅ (∪)).
    repeat split; [constructor|constructor|by intros ? ?%elem_of_nil]. }
  rewrite is_dog_ref. cbv zeta. simpl in Hb.
  destruct Hh as [h2 Hh].
  assert (Hlk : st_heap st !! a = h0 !! a) by (rewrite Hh; by apply lookup_app_l).
  rewrite Hlk.
  destruct (h0 !! a) as [cont|] eqn:Ha;
    [|apply lookup_ge_None in Ha; lia].
  pose proof (proj1 (Forall_lookup _ _) Hcl a cont Ha) as Hcc.
  assert (Hmark : exists h2', st_heap (mark a st) = h0 ++ h2') by by exists h2.
  destruct cont as [items|entries]; simpl in Hcc.
  - destruct (decide (a ∈ st_visited st)) as [|Hnv]; [done|].
    destruct (loop_items _ _ _ _ _) as [[res k] s| |] eqn:E; [|done..].
    intros Hret.
    eapply (loop_items_walked h0 max) in E; eauto;
      [|intros; by eapply ok_advances].
    destruct E as (ts & ls & Hrep & Hnd & Hfr & Hvis). simpl in Hfr, Hvis.
    unfold return_container, alloc in Hret. injection Hret as <- <-. simpl.
    exists (JArr ts), (a :: ls). split; [by eapply rep_arr|]. split; [|split].
    + apply NoDup_cons. split; [|done]. intros Hin. apply (Hfr a Hin).
      apply elem_of_union. left. by apply elem_of_singleton.
    + intros x Hx Hin. apply elem_of_cons in Hx as [->|Hx]; [done|].
      apply (Hfr x Hx). apply elem_of_union. by right.
    + rewrite Hvis, list_to_set_cons.
      by rewrite (comm_L (∪) {[a]} (list_to_set ls)), (assoc_L (∪)).
  - destruct (decide (a ∈ st_visited st)) as [|Hnv]; [done|].
    destruct (loop_entries _ _ _ _ _) as [[res k] s| |] eqn:E; [|done..].
    intros Hret.
    eapply (loop_entries_walked h0 max) in E; eauto;
      [|intros; by eapply ok_advances].
    destruct E as (ts & ls & Hrep & Hnd & Hfr & Hvis). simpl in Hfr, Hvis.
    unfold return_container, alloc in Hret. injection Hret as <- <-. simpl.
    exists (JObj ts), (a :: ls). split; [by eapply rep_obj|]. split; [|split].
    + apply NoDup_cons. split; [|done]. intros Hin. apply (Hfr a Hin).
      apply elem_of_union. left. by apply elem_of_singleton.
    + intros x Hx Hin. apply elem_of_cons in Hx as [->|Hx]; [done|].
      apply (Hfr x Hx). apply elem_of_union. by right.
    + rewrite Hvis, list_to_set_cons.
      by rewrite (comm_L (∪) {[a]} (list_to_set ls)), (assoc_L (∪)).
Qed.

(** ** Top-level calls on trees *)

Lemma fresh_for_empty l : fresh_for l ∅.
Proof. intros a _. apply not_elem_of_empty. Qed.

Lemma replace_refines h v t l max maxDepth :
  rep h v t l -> NoDup l ->
  refines (replace h v max maxDepth) (walk max maxDepth t 0 0) h (list_to_set l).
Proof.
  intros Hrep Hnd.
  pose proof (walk_refines max maxDepth (budget maxDepth 0) v t l 0 0 h ∅
                (le_n _) Hrep Hnd (fresh_for_empty l)) as H.
  by rewrite (right_id_L ∅ (∪)) in H.
Qed.

(** Within both ceilings the call returns the built tree and the number
    of matches. *)
Lemma replace_ok h v t l max maxDepth :
  rep h v t l -> NoDup l -> depthOf t <= maxDepth -> countDog t <= max ->
  exists v' h2 l',
    replace h v max maxDepth =
      Ok (mkResult v' (countDog t)) (mkState (h ++ h2) (list_to_set l)) /\
    rep (h ++ h2) v' (built t) l' /\ NoDup l'.
Proof.
  intros Hrep Hnd Hd Hk.
  pose proof (replace_refines h v t l max maxDepth Hrep Hnd) as H.
  destruct (walk_cases max maxDepth t 0 0 (Nat.le_0_l _))
    as [(Hw & _)|[(_ & Hc)|(_ & Hc)]]; [|simpl in Hc; lia..].
  rewrite Hw in H. destruct H as (v' & h2 & l' & E & Hrep' & Hnd' & _).
  exists v', h2, l'. by rewrite E.
Qed.

Lemma replace_limit h v t l max maxDepth :
  rep h v t l -> NoDup l -> depthOf t <= maxDepth -> max < countDog t ->
  replace h v max maxDepth = Err (ReplacementLimitExceededError (max + 1) max).
Proof.
  intros Hrep Hnd Hd Hk.
  pose proof (replace_refines h v t l max maxDepth Hrep Hnd) as H.
  destruct (walk_cases max maxDepth t 0 0 (Nat.le_0_l _))
    as [(_ & _ & Hc)|[(Hw & _)|(_ & Hc)]]; [simpl in Hc; lia| |simpl in Hc; lia].
  by rewrite Hw in H.
Qed.

Lemma replace_too_deep h v t l max maxDepth :
  rep h v t l -> NoDup l -> countDog t <= max -> maxDepth < depthOf t ->
  replace h v max maxDepth = Err (MaxDepthExceededError maxDepth).
Proof.
  intros Hrep Hnd Hk Hd.
  pose proof (replace_refines h v t l max maxDepth Hrep Hnd) as H.
  destruct (walk_cases max maxDepth t 0 0 (Nat.le_0_l _))
    as [(_ & Hc & _)|[(_ & Hc)|(Hw & _)]]; [simpl in Hc; lia..|].
  by rewrite Hw in H.
Qed.

(** A top-level call that returns was given a tree, returns the built
    tree in fresh containers, and counts the matches of the input. *)
Lemma replace_ok_inv h v max maxDepth r s :
  closed h -> bound h v ->
  replace h v max maxDepth = Ok r s ->
  exists t l l',
    rep h v t l /\ NoDup l /\ depthOf t <= maxDepth /\
    replacementCount r = countDog t /\ countDog t <= max /\
    rep (st_heap s) (data r) (built t) l' /\ NoDup l'.
Proof.
  intros Hcl Hb Hok.
  destruct (ok_walked h max maxDepth _ Hcl v 0 0 (mkState h ∅) r s Hb
              ltac:(exists []; by rewrite app_nil_r) Hok)
    as (t & l & Hrep & Hnd & _ & _).
  pose proof (replace_refines h v t l max maxDepth Hrep Hnd) as H.
  destruct (walk_cases max maxDepth t 0 0 (Nat.le_0_l _))
    as [(Hw & Hd & Hk)|[(Hw & _)|(Hw & _)]];
    rewrite Hw in H; simpl in H; [|congruence..].
  destruct H as (v' & h2 & l' & E & Hrep' & Hnd' & _).
  rewrite Hok in E. injection E as -> ->. simpl in *.
  exists t, l, l'. repeat split; auto; lia.
Qed.

(** ** Sub-values on their own *)

(** On a closed heap every call of the traversal is on a value bound in
    the input heap, in a heap that extends it. *)
Lemma reaches_bound h max maxDepth c c' :
  closed h ->
  reaches max maxDepth c c' ->
  bound h (c_value c) -> (exists h2, st_heap (c_state c) = h ++ h2) ->
  bound h (c_value c') /\ exists h2, st_heap (c_state c') = h ++ h2.
Proof.
  intros Hcl. induction 1 as [c|c1 c2 c3 H12 H23 IH]; [done|].
  intros Hb [h2 Hh]. apply IH.
  - destruct H12 as [a pre item post cnt depth st racc cnt' st' Hd Hlk Hv Hl
                    |a pre key val post cnt depth st racc cnt' st' Hd Hlk Hv Hl];
      simpl in *; rewrite Hh, lookup_app_l in Hlk by done;
      pose proof (proj1 (Forall_lookup _ _) Hcl _ _ Hlk) as Hcc; simpl in Hcc.
    + apply Forall_app in Hcc as [_ Hcc]. by apply Forall_cons in Hcc as [? _].
    + apply Forall_app in Hcc as [_ Hcc]. by apply Forall_cons in Hcc as [? _].
  - apply child_call_inv in H12 as (_ & _ & _ & _ & _ & h3 & Hh3).
    exists (h2 ++ h3). by rewrite Hh3, Hh, app_assoc.
Qed.

(** A value met by a traversal that returns is processed successfully on
    its own as well, with a count no larger than that of the whole. *)
Lemma sub_value_alone h v max maxDepth c r s :
  closed h -> bound h v ->
  reaches max maxDepth (top_call h v) c ->
  replace h v max maxDepth = Ok r s ->
  exists r0 s0,
    replace h (c_value c) max maxDepth = Ok r0 s0 /\
    replacementCount r0 <= replacementCount r.
Proof.
  intros Hcl Hb Hreach E. rewrite <- exec_top in E.
  destruct (reaches_ok _ _ _ _ _ _ Hreach E) as (r' & s' & E' & _ & A).
  destruct A as (Hle & _).
  pose proof (reaches_top_count _ _ _ _ _ Hreach) as Hcnt.
  destruct (reaches_bound h max maxDepth _ _ Hcl Hreach Hb
              ltac:(exists []; by rewrite app_nil_r)) as (Hb' & h2 & Hh).
  destruct c as [v' cnt depth [hst vis]].
  unfold exec in E'. cbn [c_value c_count c_depth c_state st_heap] in *.
  subst hst.
  destruct (ok_walked h max maxDepth _ Hcl v' cnt depth
              (mkState (h ++ h2) vis) r' s' Hb' (ex_intro _ h2 eq_refl) E')
    as (t & l & Hrep & Hnd & Hfr & _).
  pose proof (walk_refines max maxDepth _ v' t l cnt depth (h ++ h2) vis
                (le_n _) (proj1 (rep_grow h h2) _ _ _ Hrep) Hnd Hfr) as Hw.
  rewrite E' in Hw.
  destruct (walk_cases max maxDepth t cnt depth Hcnt)
    as [(Hw' & Hd & Hk)|[(Hw' & _)|(Hw' & _)]];
    rewrite Hw' in Hw; simpl in Hw; [|congruence..].
  destruct Hw as (v2 & h3 & l3 & Heq & _). injection Heq as -> _.
  destruct (replace_ok h v' t l max maxDepth Hrep Hnd ltac:(lia) ltac:(lia))
    as (v0 & h0 & l0 & E0 & _).
  eexists _, _. split; [exact E0|]. simpl in *. lia.
Qed.

(** ** Building unfoldings of concrete inputs *)

Lemma rep_items_cons' h v vs t ts l ls l' :
  rep h v t l -> rep_items h vs ts ls -> l' = l ++ ls ->
  rep_items h (v :: vs) (t :: ts) l'.
Proof. intros ? ? ->. by constructor. Qed.

Lemma rep_entries_cons' h k v es t tes l ls l' :
  rep h v t l -> rep_entries h es tes ls -> l' = l ++ ls ->
  rep_entries h ((k, v) :: es) ((k, t) :: tes) l'.
Proof. intros ? ? ->. by constructor. Qed.

Ltac rep_tac :=
  cbv [str cat];
  lazymatch goal with
  | |- rep _ (VScalar _) _ _ => apply rep_scalar
  | |- rep _ (VRef _) (JArr _) _ => eapply rep_arr; [reflexivity|rep_tac]
  | |- rep _ (VRef _) (JObj _) _ => eapply rep_obj; [reflexivity|rep_tac]
  | |- rep_items _ [] _ _ => apply rep_items_nil
  | |- rep_items _ (_ :: _) _ _ =>
      eapply rep_items_cons'; [rep_tac|rep_tac|reflexivity]
  | |- rep_entries _ [] _ _ => apply rep_entries_nil
  | |- rep_entries _ (_ :: _) _ _ =>
      eapply rep_entries_cons'; [rep_tac|rep_tac|reflexivity]
  end.

(** * The claims *)

(** ** C1: exact count *)

Lemma rep_items_scalars h inner :
  rep_items h (map VScalar inner) (map JScalar inner) [].
Proof.
  induction inner as [|s inner IH]; simpl; [constructor|].
  eapply rep_items_cons'; [apply rep_scalar|exact IH|done].
Qed.

Lemma chain_rep inner n k :
  k <= n ->
  rep (chain_of inner n) (VRef k) (chain_tree_of inner (n - k))
      (seq k (S (n - k))).
Proof.
  intros Hk. remember (n - k) as d eqn:Hd. revert k Hk Hd.
  induction d as [|d IH]; intros k Hk Hd.
  - assert (k = n) as -> by lia. unfold chain_tree_of. simpl.
    eapply rep_arr; [|apply rep_items_scalars].
    unfold chain_of. rewrite lookup_app_r; rewrite length_map, length_seq; [|lia].
    by rewrite Nat.sub_diag.
  - change (chain_tree_of inner (S d)) with (JArr [chain_tree_of inner d]).
    change (seq k (S (S d))) with (k :: seq (S k) (S d)).
    eapply rep_arr.
    + unfold chain_of.
      rewrite lookup_app_l; [|rewrite length_map, length_seq; lia].
      rewrite list_lookup_fmap, lookup_seq_lt; [done|lia].
    + eapply rep_items_cons'; [apply IH; lia|apply rep_items_nil|].
      by rewrite app_nil_r.
Qed.

(** Within both ceilings and without a ["__proto__"] key the call
    returns the specified transformation of the input and the number of
    its matches. *)
Lemma replace_plain h v t l max maxDepth :
  rep h v t l -> NoDup l -> depthOf t <= maxDepth -> plain_keys t ->
  countDog t <= max ->
  exists v' s' l',
    replace h v max maxDepth = Ok (mkResult v' (countDog t)) s' /\
    rep (st_heap s') v' (cat_for_dog t) l'.
Proof.
  intros Hrep Hnd Hd Hp Hk.
  destruct (replace_ok h v t l max maxDepth Hrep Hnd Hd Hk)
    as (v' & h2 & l' & E & Hrep' & _).
  rewrite built_plain in Hrep' by done. eauto.
Qed.

(** C1, counterexample: the value is a chain of 101 different arrays
    around one ["dog"]: exactly one match, and [maxReplacements = 100 >= 1],
    yet the call with the default depth ceiling does not return: it throws
    [MaxDepthExceededError(100)]. *)
Lemma exact_count_counterexample :
  rep (chain 100) (VRef 0) (chain_tree 100) (seq 0 101) /\
  NoDup (seq 0 101) /\
  countDog (chain_tree 100) = 1 /\ 1 <= 100 /\
  replace_default (chain 100) (VRef 0) 100 = Err (MaxDepthExceededError 100).
Proof.
  split; [apply (chain_rep [SStr "dog"] 100 0); lia|].
  split; [apply NoDup_seq|]. split; [reflexivity|]. split; [lia|].
  vm_compute. reflexivity.
Qed.

(** C1, amended: for every value that unfolds to a tree [t] whose
    containers are all different, that is nested no deeper than
    [maxDepth], that has no ["__proto__"] key and holds exactly [k]
    matches, and for every [maxReplacements >= k], the call returns with
    [replacementCount = k] and data that unfolds to [cat_for_dog t]:
    every match replaced in place, everything else as in the input. *)
Theorem exact_count h v t l k max maxDepth :
  rep h v t l -> NoDup l -> depthOf t <= maxDepth -> plain_keys t ->
  countDog t = k -> k <= max ->
  exists v' s' l',
    replace h v max maxDepth = Ok (mkResult v' k) s' /\
    rep (st_heap s') v' (cat_for_dog t) l'.
Proof.
  intros Hrep Hnd Hd Hp <- Hk. by eapply replace_plain.
Qed.

Lemma exact_count_witness :
  exists v' s' l',
    replace pet_heap (VRef 0) 100 100 = Ok (mkResult v' 1) s' /\
    rep (st_heap s') v' (cat_for_dog pet_tree) l'.
Proof.
  apply (exact_count pet_heap (VRef 0) pet_tree [0] 1 100 100).
  - unfold pet_heap, pet_tree. rep_tac.
  - apply NoDup_singleton.
  - simpl. lia.
  - simpl. repeat split; discriminate.
  - reflexivity.
  - lia.
Defined.

(** ** C2: the replacement limit *)

(** A match met within the depth ceiling fails or succeeds by the count
    carried in alone. *)
Lemma exec_dog max maxDepth c :
  is_dog (c_value c) = true -> c_depth c <= maxDepth ->
  exec max maxDepth c =
    if decide (max < c_count c + 1)
    then Err (ReplacementLimitExceededError (c_count c + 1) max)
    else Ok (mkResult cat (c_count c + 1)) (c_state c).
Proof.
  destruct c as [v cnt depth st]. simpl. intros Hdog Hd.
  rewrite exec_eq, Hdog. destruct (decide (maxDepth < depth)); [lia|done].
Qed.

(** C2, counterexample: [["dog", ["dog"]]] holds two matches, more than
    [maxReplacements = 1].  With [maxDepth = 1] the second match is met
    (the function is called on it, one replacement having succeeded) at
    depth 2, and what is raised is [MaxDepthExceededError(1)], not
    [ReplacementLimitExceededError].  The same with the default depth
    ceiling, when the second match lies under 100 nested arrays. *)
Lemma limit_boundary_counterexample :
  (rep dog_in_dog_heap (VRef 1) dog_in_dog_tree [1; 0] /\
   countDog dog_in_dog_tree = 2 /\
   replace dog_in_dog_heap (VRef 1) 1 1 = Err (MaxDepthExceededError 1)) /\
  (rep dog_and_chain_heap (VRef 100) dog_and_chain_tree (100 :: seq 0 100) /\
   countDog dog_and_chain_tree = 2 /\
   replace_default dog_and_chain_heap (VRef 100) 1 =
     Err (MaxDepthExceededError 100)) /\
  exists st, reaches 1 1 (top_call dog_in_dog_heap (VRef 1))
                     (mkCall (str "dog") 1 2 st).
Proof.
  split; [|split].
  { split; [unfold dog_in_dog_heap, dog_in_dog_tree; rep_tac|].
    split; reflexivity. }
  { split; [|split; [reflexivity|by vm_compute]].
    eapply rep_arr; [reflexivity|].
    eapply rep_items_cons'; [apply rep_scalar| |reflexivity].
    eapply rep_items_cons'; [|apply rep_items_nil|by rewrite app_nil_r].
    apply (proj1 (rep_grow (chain 99) [CArr [str "dog"; VRef 0]])).
    apply (chain_rep [SStr "dog"] 99 0). lia. }
  eexists. unfold reaches.
  eapply rtc_l.
  { eapply child_item with (a := 1) (pre := [str "dog"]) (item := VRef 0) (post := []).
    - lia.
    - reflexivity.
    - simpl. apply not_elem_of_empty.
    - reflexivity. }
  eapply rtc_l; [|apply rtc_refl].
  eapply child_item with (a := 0) (pre := []) (item := str "dog") (post := []).
  - simpl. lia.
  - reflexivity.
  - simpl. intros H. apply elem_of_union in H as [H|H].
    + by apply elem_of_singleton in H.
    + by apply not_elem_of_empty in H.
  - reflexivity.
Qed.

(** C2, amended: whatever the input, a match that the traversal meets
    within the depth ceiling finds at most [maxReplacements] replacements
    made; it succeeds when fewer were made, and when exactly
    [maxReplacements] were made the whole call raises
    [ReplacementLimitExceededError(maxReplacements + 1, maxReplacements)].
    So a tree with all containers different, nested within [maxDepth] and
    holding more than [maxReplacements] matches raises it; and whenever
    the call raises it, it carries these two numbers. *)
Theorem limit_boundary h v max maxDepth :
  (forall c,
     reaches max maxDepth (top_call h v) c ->
     is_dog (c_value c) = true -> c_depth c <= maxDepth ->
     c_count c <= max /\
     (c_count c < max ->
        exec max maxDepth c = Ok (mkResult cat (c_count c + 1)) (c_state c)) /\
     (c_count c = max ->
        replace h v max maxDepth =
          Err (ReplacementLimitExceededError (max + 1) max))) /\
  (forall t l,
     rep h v t l -> NoDup l -> depthOf t <= maxDepth -> max < countDog t ->
     replace h v max maxDepth =
       Err (ReplacementLimitExceededError (max + 1) max)) /\
  (forall n lim,
     replace h v max maxDepth = Err (ReplacementLimitExceededError n lim) ->
     n = max + 1 /\ lim = max).
Proof.
  split; [|split].
  - intros c Hreach Hdog Hd.
    pose proof (exec_dog max maxDepth c Hdog Hd) as E.
    split; [by eapply reaches_top_count|]. split.
    + intros Hlt. rewrite E. destruct (decide (max < c_count c + 1)); [lia|done].
    + intros Heq. rewrite <- exec_top.
      eapply reaches_err; [exact Hreach|].
      rewrite E, Heq. destruct (decide (max < max + 1)); [done|lia].
  - intros t l. apply replace_limit.
  - intros n lim E.
    by apply (err_payload max maxDepth _ v 0 0 (mkState h ∅) _ (Nat.le_0_l _)) in E.
Qed.

Lemma limit_boundary_witness :
  replace two_dogs_heap (VRef 0) 1 100 = Err (ReplacementLimitExceededError 2 1) /\
  replace two_dogs_heap (VRef 0) 1 100 = Err (ReplacementLimitExceededError 2 1).
Proof.
  split.
  - apply (proj1 (proj2 (limit_boundary two_dogs_heap (VRef 0) 1 100))
             two_dogs_tree [0]).
    + unfold two_dogs_heap, two_dogs_tree. rep_tac.
    + apply NoDup_singleton.
    + simpl. lia.
    + simpl. lia.
  - apply (proj1 (limit_boundary two_dogs_heap (VRef 0) 1 100)
             (mkCall (str "dog") 1 1 (mkState two_dogs_heap ({[0]} ∪ ∅)))).
    + eapply rtc_l; [|apply rtc_refl].
      eapply child_item with (a := 0) (pre := [str "dog"]) (item := str "dog")
                             (post := []).
      * lia.
      * reflexivity.
      * apply not_elem_of_empty.
      * reflexivity.
    + reflexivity.
    + simpl. lia.
    + reflexivity.
Defined.

(** ** C3: the depth ceiling *)

Lemma too_deep fuel value max c depth maxDepth st :
  maxDepth < depth ->
  replaceDogWithCat (S fuel) value max c depth maxDepth st =
    Err (MaxDepthExceededError maxDepth).
Proof.
  intros Hd. rewrite replaceDogWithCat_S. by destruct (decide (maxDepth < depth)).
Qed.

(** C3, counterexample: [["dog", "dog"]] is nested to exactly
    [maxDepth = 1] levels, and with [maxReplacements = 1] it is not
    processed successfully: the second match raises
    [ReplacementLimitExceededError(2, 1)].  The same with the default
    depth ceiling for ["dog", "dog"] under 100 nested arrays, which is
    nested to exactly 100 levels.  And [["dog", "dog", ["x"]]], nested to
    [maxDepth + 1 = 2] levels, fails with the same error and not with
    [MaxDepthExceededError]. *)
Lemma depth_boundary_counterexample :
  (rep two_dogs_heap (VRef 0) two_dogs_tree [0] /\
   depthOf two_dogs_tree = 1 /\
   replace two_dogs_heap (VRef 0) 1 1 =
     Err (ReplacementLimitExceededError 2 1)) /\
  (rep (chain_of [SStr "dog"; SStr "dog"] 99) (VRef 0)
       (chain_tree_of [SStr "dog"; SStr "dog"] 99) (seq 0 100) /\
   NoDup (seq 0 100) /\
   depthOf (chain_tree_of [SStr "dog"; SStr "dog"] 99) = DEFAULT_MAX_DEPTH /\
   replace_default (chain_of [SStr "dog"; SStr "dog"] 99) (VRef 0) 1 =
     Err (ReplacementLimitExceededError 2 1)) /\
  (rep dogs_then_deep_heap (VRef 1) dogs_then_deep_tree [1; 0] /\
   depthOf dogs_then_deep_tree = 1 + 1 /\
   replace dogs_then_deep_heap (VRef 1) 1 1 =
     Err (ReplacementLimitExceededError 2 1)).
Proof.
  split; [|split].
  - split; [unfold two_dogs_heap, two_dogs_tree; rep_tac|].
    split; reflexivity.
  - split; [apply (chain_rep [SStr "dog"; SStr "dog"] 99 0); lia|].
    split; [apply NoDup_seq|]. split; [reflexivity|by vm_compute].
  - split; [unfold dogs_then_deep_heap, dogs_then_deep_tree; rep_tac|].
    split; reflexivity.
Qed.

(** C3, amended: the root is at depth 0 and every descent into a child
    adds exactly 1.  For a value that unfolds to a tree whose containers
    are all different and that holds no more than [maxReplacements]
    matches: nested to at most [maxDepth] levels it is processed
    successfully, nested deeper it fails with
    [MaxDepthExceededError(maxDepth)].  The check compares the depth
    with the [maxDepth] of the call and nothing else; a call that passes
    none uses 100. *)
Theorem depth_boundary h v t l max maxDepth :
  rep h v t l -> NoDup l -> countDog t <= max ->
  (depthOf t <= maxDepth ->
     exists v' s', replace h v max maxDepth = Ok (mkResult v' (countDog t)) s') /\
  (maxDepth < depthOf t ->
     replace h v max maxDepth = Err (MaxDepthExceededError maxDepth)) /\
  c_depth (top_call h v) = 0 /\
  (forall c c', child_call max maxDepth c c' -> c_depth c' = c_depth c + 1) /\
  (forall fuel value c depth st,
     maxDepth < depth ->
     replaceDogWithCat (S fuel) value max c depth maxDepth st =
       Err (MaxDepthExceededError maxDepth)) /\
  replace_default h v max = replace h v max 100.
Proof.
  intros Hrep Hnd Hk. repeat split.
  - intros Hd.
    destruct (replace_ok h v t l max maxDepth Hrep Hnd Hd Hk)
      as (v' & h2 & l' & E & _). eauto.
  - intros Hd. by eapply replace_too_deep.
  - intros c c' H. by apply child_call_inv in H as (? & _).
  - intros. by apply too_deep.
Qed.

Lemma depth_boundary_witness :
  (exists v' s',
     replace dog_in_dog_heap (VRef 1) 100 2 = Ok (mkResult v' 2) s') /\
  replace dog_in_dog_heap (VRef 1) 100 1 = Err (MaxDepthExceededError 1).
Proof.
  assert (Hrep : rep dog_in_dog_heap (VRef 1) dog_in_dog_tree [1; 0]).
  { unfold dog_in_dog_heap, dog_in_dog_tree. rep_tac. }
  assert (Hnd : NoDup [1; 0]).
  { apply NoDup_cons. split; [|apply NoDup_singleton].
    intros H. by apply list_elem_of_singleton in H. }
  assert (Hk : countDog dog_in_dog_tree <= 100) by (simpl; lia).
  split.
  - apply (proj1 (depth_boundary dog_in_dog_heap (VRef 1) dog_in_dog_tree
                    [1; 0] 100 2 Hrep Hnd Hk)).
    apply Nat.leb_le. reflexivity.
  - apply (proj1 (proj2 (depth_boundary dog_in_dog_heap (VRef 1) dog_in_dog_tree
                           [1; 0] 100 1 Hrep Hnd Hk))).
    apply Nat.ltb_lt. reflexivity.
Defined.

(** ** C4: containers met again *)

Lemma exec_revisit max maxDepth c a :
  c_value c = VRef a -> is_Some (st_heap (c_state c) !! a) ->
  a ∈ st_visited (c_state c) -> c_depth c <= maxDepth ->
  exec max maxDepth c = Err CircularReferenceError.
Proof.
  destruct c as [v cnt depth st]. simpl. intros -> [cont Hlk] Hin Hd.
  rewrite exec_eq, is_dog_ref, Hlk.
  destruct (decide (maxDepth < depth)); [lia|].
  destruct cont; by destruct (decide (a ∈ st_visited st)).
Qed.

(** A container that has been processed stays in the visited set. *)
Lemma exec_marks max maxDepth c a r s :
  c_value c = VRef a -> is_Some (st_heap (c_state c) !! a) ->
  exec max maxDepth c = Ok r s -> a ∈ st_visited s.
Proof.
  destruct c as [v cnt depth st]. simpl. intros -> [cont Hlk].
  rewrite exec_eq, is_dog_ref, Hlk.
  destruct (decide (maxDepth < depth)); [done|].
  destruct cont as [items|entries].
  - destruct (decide (a ∈ st_visited st)); [done|].
    destruct (loop_items _ _ _ _ _) as [[res k] s2| |] eqn:E; [|done..].
    apply loop_items_advances with (max := max) in E;
      [|apply exec_child_advances].
    apply advances_mark in E as [E Ha]. intros Hret.
    eapply advances_return in Hret as [_ ->]; eauto.
  - destruct (decide (a ∈ st_visited st)); [done|].
    destruct (loop_entries _ _ _ _ _) as [[res k] s2| |] eqn:E; [|done..].
    apply loop_entries_advances with (max := max) in E;
      [|apply exec_child_advances].
    apply advances_mark in E as [E Ha]. intros Hret.
    eapply advances_return in Hret as [_ ->]; eauto.
Qed.

(** C4, counterexample: an array whose only element is itself is met a
    second time (as its own child, when it is already in the visited
    set), and with [maxDepth = 0] the call fails with
    [MaxDepthExceededError(0)], not [CircularReferenceError].  With the
    default ceiling the same happens to a ring of 101 arrays. *)
Lemma revisit_counterexample :
  child_call 100 0 (top_call self_heap (VRef 0))
             (mkCall (VRef 0) 0 1 (mkState self_heap ({[0]} ∪ ∅))) /\
  0 ∈ ({[0]} ∪ ∅ : gset nat) /\
  replace self_heap (VRef 0) 100 0 = Err (MaxDepthExceededError 0) /\
  replace_default ring (VRef 0) 100 = Err (MaxDepthExceededError 100).
Proof.
  split; [|split; [|split]].
  - eapply child_item with (a := 0) (pre := []) (item := VRef 0) (post := []).
    + lia.
    + reflexivity.
    + apply not_elem_of_empty.
    + reflexivity.
  - apply elem_of_union. left. by apply elem_of_singleton.
  - reflexivity.
  - vm_compute. reflexivity.
Qed.

(** C4, amended: a container is put in the visited set before the
    traversal descends into it and nothing is ever removed from the set,
    neither on the way down nor when a call returns.  So whenever the
    traversal of a top-level call meets, at a depth not exceeding
    [maxDepth], a container that is already in the set (a reference back
    to an enclosing container, or a container shared with a branch that
    is already done), the whole call fails with
    [CircularReferenceError]; and the call always ends. *)
Theorem revisit_detected h v max maxDepth :
  (forall c a,
     reaches max maxDepth (top_call h v) c ->
     c_value c = VRef a -> is_Some (st_heap (c_state c) !! a) ->
     a ∈ st_visited (c_state c) -> c_depth c <= maxDepth ->
     replace h v max maxDepth = Err CircularReferenceError) /\
  (forall c c',
     child_call max maxDepth c c' ->
     exists a, c_value c = VRef a /\ a ∈ st_visited (c_state c')) /\
  (forall c c',
     reaches max maxDepth c c' ->
     st_visited (c_state c) ⊆ st_visited (c_state c')) /\
  (forall c r s,
     exec max maxDepth c = Ok r s ->
     st_visited (c_state c) ⊆ st_visited s /\
     forall a, c_value c = VRef a -> is_Some (st_heap (c_state c) !! a) ->
               a ∈ st_visited s) /\
  replace h v max maxDepth <> Timeout.
Proof.
  split; [|split; [|split; [|split]]].
  - intros c a Hreach Hv Hc Hin Hd. rewrite <- exec_top.
    eapply reaches_err; [exact Hreach|]. by eapply exec_revisit.
  - intros c c' H. by apply child_call_inv in H as (_ & H & _).
  - intros c c' H. by apply reaches_advances in H as (_ & _ & _ & H & _).
  - intros c r s E. split.
    + by apply exec_advances in E as (_ & _ & H & _).
    + intros a Hv Hc. by eapply exec_marks.
  - rewrite <- exec_top. apply exec_total.
Qed.

Lemma revisit_detected_witness :
  replace self_obj_heap (VRef 0) 100 100 = Err CircularReferenceError /\
  replace shared_heap (VRef 1) 100 100 = Err CircularReferenceError.
Proof.
  split.
  - eapply (proj1 (revisit_detected self_obj_heap (VRef 0) 100 100)
              (mkCall (VRef 0) 1 1 _) 0).
    + eapply rtc_l; [|apply rtc_refl].
      eapply child_entry with (a := 0) (pre := [("pet", str "dog")])
                              (key := "self") (val := VRef 0) (post := []).
      * lia.
      * reflexivity.
      * apply not_elem_of_empty.
      * reflexivity.
    + reflexivity.
    + by eexists.
    + simpl. apply elem_of_union. left. by apply elem_of_singleton.
    + simpl. lia.
  - eapply (proj1 (revisit_detected shared_heap (VRef 1) 100 100)
              (mkCall (VRef 0) 0 1 _) 0).
    + eapply rtc_l; [|apply rtc_refl].
      eapply child_item with (a := 1) (pre := [VRef 0]) (item := VRef 0)
                             (post := []).
      * lia.
      * reflexivity.
      * apply not_elem_of_empty.
      * reflexivity.
    + reflexivity.
    + by eexists.
    + by vm_compute.
    + simpl. lia.
Defined.

(** ** C5: the order of the checks at one node *)

(** C5: at any node, whatever its value, its count and the visited set,
    a depth above [maxDepth] gives [MaxDepthExceededError] (so also for a
    match and for a container met again); and a container within the
    depth ceiling that is already in the visited set gives
    [CircularReferenceError] whatever it contains, even with budget for
    no recursive call at all: no child is looked at before the check. *)
Theorem check_order fuel value max c depth maxDepth st :
  (maxDepth < depth ->
     replaceDogWithCat (S fuel) value max c depth maxDepth st =
       Err (MaxDepthExceededError maxDepth)) /\
  (depth <= maxDepth ->
     forall a, value = VRef a -> is_Some (st_heap st !! a) ->
     a ∈ st_visited st ->
     replaceDogWithCat (S fuel) value max c depth maxDepth st =
       Err CircularReferenceError /\
     replaceDogWithCat 1 value max c depth maxDepth st =
       Err CircularReferenceError).
Proof.
  split; [apply too_deep|].
  intros Hd a -> [cont Hlk] Hin.
  rewrite !replaceDogWithCat_S, is_dog_ref, Hlk.
  destruct (decide (maxDepth < depth)); [lia|].
  destruct cont; by destruct (decide (a ∈ st_visited st)).
Qed.

Lemma check_order_witness :
  replaceDogWithCat 1 (str "dog") 100 0 1 0 (mkState [] ∅) =
    Err (MaxDepthExceededError 0) /\
  replaceDogWithCat 1 (VRef 0) 100 0 1 0 (mkState self_heap {[0]}) =
    Err (MaxDepthExceededError 0) /\
  replaceDogWithCat 1 (VRef 0) 100 0 1 1 (mkState self_heap {[0]}) =
    Err CircularReferenceError.
Proof.
  split; [|split].
  - apply (proj1 (check_order 0 (str "dog") 100 0 1 0 (mkState [] ∅))). lia.
  - apply (proj1 (check_order 0 (VRef 0) 100 0 1 0 (mkState self_heap {[0]}))).
    lia.
  - apply (proj2 (check_order 0 (VRef 0) 100 0 1 1 (mkState self_heap {[0]}))
             (le_n 1) 0 eq_refl).
    + by eexists.
    + by vm_compute.
Defined.

(** ** C6: threading of the count *)

(** C6: in both loops the call for an element starts from the count that
    the elements before it left, and these loops are what the function
    runs on a container: on an array (an object) that is within the depth
    ceiling and not yet visited, once the elements before [item] have
    left the count [k], the function is the call on [item] from [k], one
    level deeper, followed by the loop over the remaining elements from
    the count that call returns (for the first element, [k] is the count
    carried into the container).  A call that returns gives back at least
    the count it was given, and no less when it is given more; and every
    call made inside a call that returns has returned, with a count
    between the one carried into the enclosing call and the one the
    enclosing call returns, and having added no more than the enclosing
    call adds.  Processed on its own, a value met inside a value that is
    processed successfully gives a count no larger than the whole.  On a
    tree, the count returned is the count carried in plus the number of
    matches in the tree. *)
Theorem count_threading max maxDepth :
  (forall rec pre item post c acc st racc k st',
     loop_items rec pre c acc st = Ok (racc, k) st' ->
     loop_items rec (pre ++ item :: post) c acc st =
       match rec item k st' with
       | Ok r st'' =>
           loop_items rec post (replacementCount r) (racc ++ [data r]) st''
       | Err e => Err e
       | Timeout => Timeout
       end) /\
  (forall rec pre key val post c acc st racc k st',
     loop_entries rec pre c acc st = Ok (racc, k) st' ->
     loop_entries rec (pre ++ (key, val) :: post) c acc st =
       match rec val k st' with
       | Ok r st'' =>
           loop_entries rec post (replacementCount r)
                        (obj_set racc key (data r)) st''
       | Err e => Err e
       | Timeout => Timeout
       end) /\
  (forall fuel a pre item post c depth st racc k st',
     depth <= maxDepth ->
     st_heap st !! a = Some (CArr (pre ++ item :: post)) ->
     a ∉ st_visited st ->
     loop_items (fun v' c' s' =>
                   replaceDogWithCat fuel v' max c' (depth + 1) maxDepth s')
                pre c [] (mark a st) = Ok (racc, k) st' ->
     replaceDogWithCat (S fuel) (VRef a) max c depth maxDepth st =
       match replaceDogWithCat fuel item max k (depth + 1) maxDepth st' with
       | Ok r st'' =>
           match loop_items (fun v' c' s' =>
                               replaceDogWithCat fuel v' max c' (depth + 1)
                                                 maxDepth s')
                            post (replacementCount r) (racc ++ [data r]) st''
           with
           | Ok (result, totalCount) s =>
               return_container (CArr result) totalCount s
           | Err e => Err e
           | Timeout => Timeout
           end
       | Err e => Err e
       | Timeout => Timeout
       end) /\
  (forall fuel a pre key val post c depth st racc k st',
     depth <= maxDepth ->
     st_heap st !! a = Some (CObj (pre ++ (key, val) :: post)) ->
     a ∉ st_visited st ->
     loop_entries (fun v' c' s' =>
                     replaceDogWithCat fuel v' max c' (depth + 1) maxDepth s')
                  pre c [] (mark a st) = Ok (racc, k) st' ->
     replaceDogWithCat (S fuel) (VRef a) max c depth maxDepth st =
       match replaceDogWithCat fuel val max k (depth + 1) maxDepth st' with
       | Ok r st'' =>
           match loop_entries (fun v' c' s' =>
                                 replaceDogWithCat fuel v' max c' (depth + 1)
                                                   maxDepth s')
                              post (replacementCount r)
                              (obj_set racc key (data r)) st''
           with
           | Ok (result, totalCount) s =>
               return_container (CObj result) totalCount s
           | Err e => Err e
           | Timeout => Timeout
           end
       | Err e => Err e
       | Timeout => Timeout
       end) /\
  (forall fuel v c depth st r s,
     replaceDogWithCat fuel v max c depth maxDepth st = Ok r s ->
     c <= replacementCount r) /\
  (forall fuel v c1 c2 depth st r1 s1 r2 s2,
     c1 <= c2 ->
     replaceDogWithCat fuel v max c1 depth maxDepth st = Ok r1 s1 ->
     replaceDogWithCat fuel v max c2 depth maxDepth st = Ok r2 s2 ->
     replacementCount r1 <= replacementCount r2) /\
  (forall c c' r s,
     reaches max maxDepth c c' -> exec max maxDepth c = Ok r s ->
     exists r' s',
       exec max maxDepth c' = Ok r' s' /\
       c_count c <= c_count c' /\ c_count c' <= replacementCount r' /\
       replacementCount r' <= replacementCount r /\
       replacementCount r' - c_count c' <= replacementCount r - c_count c) /\
  (forall h v c r s,
     closed h -> bound h v ->
     reaches max maxDepth (top_call h v) c ->
     replace h v max maxDepth = Ok r s ->
     exists r0 s0,
       replace h (c_value c) max maxDepth = Ok r0 s0 /\
       replacementCount r0 <= replacementCount r) /\
  (forall fuel v t l c depth h vis r s,
     budget maxDepth depth <= fuel -> c <= max ->
     rep h v t l -> NoDup l -> fresh_for l vis ->
     replaceDogWithCat fuel v max c depth maxDepth (mkState h vis) = Ok r s ->
     replacementCount r = c + countDog t).
Proof.
  split; [|split; [|split; [|split; [|split; [|split; [|split; [|split]]]]]]].
  - intros rec pre item post c acc st racc k st' Hpre.
    by rewrite loop_items_app, Hpre.
  - intros rec pre key val post c acc st racc k st' Hpre.
    by rewrite loop_entries_app, Hpre.
  - intros fuel a pre item post c depth st racc k st' Hd Hlk Hnv Hpre.
    rewrite replaceDogWithCat_S, is_dog_ref. cbv zeta. rewrite Hlk.
    destruct (decide (maxDepth < depth)); [lia|].
    destruct (decide (a ∈ st_visited st)); [done|].
    rewrite loop_items_app, Hpre. cbn [loop_items].
    by destruct (replaceDogWithCat fuel item max k (depth + 1) maxDepth st').
  - intros fuel a pre key val post c depth st racc k st' Hd Hlk Hnv Hpre.
    rewrite replaceDogWithCat_S, is_dog_ref. cbv zeta. rewrite Hlk.
    destruct (decide (maxDepth < depth)); [lia|].
    destruct (decide (a ∈ st_visited st)); [done|].
    rewrite loop_entries_app, Hpre. cbn [loop_entries].
    by destruct (replaceDogWithCat fuel val max k (depth + 1) maxDepth st').
  - intros fuel v c depth st r s E. by apply ok_advances in E as (? & _).
  - intros fuel v c1 c2 depth st r1 s1 r2 s2 Hle E1 E2.
    destruct (ok_shift _ _ _ _ _ _ _ _ _ _ _ _ E1 E2) as (_ & _ & Hk). lia.
  - intros c c' r s Hreach E.
    destruct (reaches_ok _ _ _ _ _ _ Hreach E) as (r' & s' & E' & A1 & A2).
    apply reaches_advances in Hreach as (_ & Hcnt & _).
    destruct A1 as (? & _). destruct A2 as (? & _).
    exists r', s'. repeat split; [done|lia..].
  - intros h v c r s. apply sub_value_alone.
  - intros fuel v t l c depth h vis r s Hf Hc Hrep Hnd Hfr E.
    pose proof (walk_refines max maxDepth fuel v t l c depth h vis
                  Hf Hrep Hnd Hfr) as H.
    destruct (walk_cases max maxDepth t c depth Hc)
      as [(Hw & _)|[(Hw & _)|(Hw & _)]]; rewrite Hw in H; simpl in H.
    + destruct H as (v' & h2 & l' & E' & _). rewrite E' in E.
      by injection E as <- _.
    + by rewrite H in E.
    + by rewrite H in E.
Qed.

Lemma count_threading_witness :
  replaceDogWithCat 3 (VRef 0) 100 0 0 100 (mkState two_dogs_heap ∅) =
    match replaceDogWithCat 2 (str "dog") 100 1 (0 + 1) 100
                            (mkState two_dogs_heap ({[0]} ∪ ∅)) with
    | Ok r st'' =>
        match loop_items (fun v' c' s' =>
                            replaceDogWithCat 2 v' 100 c' (0 + 1) 100 s')
                         [] (replacementCount r) ([cat] ++ [data r]) st''
        with
        | Ok (result, totalCount) s =>
            return_container (CArr result) totalCount s
        | Err e => Err e
        | Timeout => Timeout
        end
    | Err e => Err e
    | Timeout => Timeout
    end.
Proof.
  apply (proj1 (proj2 (proj2 (count_threading 100 100)))
           2 0 [str "dog"] (str "dog") [] 0 0 (mkState two_dogs_heap ∅)
           [cat] 1 (mkState two_dogs_heap ({[0]} ∪ ∅))).
  - lia.
  - reflexivity.
  - simpl. apply not_elem_of_empty.
  - reflexivity.
Defined.

(** ** C7: only values, and only whole values, are matched *)

(** A string other than ["dog"], such as one that merely contains it, is
    no match and is returned as it is. *)
Lemma other_string_kept h s max maxDepth :
  s <> "dog" ->
  replace h (str s) max maxDepth = Ok (mkResult (str s) 0) (mkState h ∅).
Proof.
  intros Hs. unfold replace, budget. rewrite replaceDogWithCat_S.
  destruct (decide (maxDepth < 0)); [lia|].
  unfold str, is_dog. by rewrite bool_decide_eq_false_2.
Qed.

Example hotdog_kept :
  replace [] (str "hotdog") 100 100 = Ok (mkResult (str "hotdog") 0) (mkState [] ∅).
Proof. by apply other_string_kept. Qed.

(** Where no key is ["__proto__"], the result has the keys of the input,
    in the same order, whatever they are: keys are not matched. *)
Lemma keys_kept h v t l max maxDepth :
  rep h v t l -> NoDup l -> depthOf t <= maxDepth -> plain_keys t ->
  countDog t <= max ->
  exists v' s' t' l',
    replace h v max maxDepth = Ok (mkResult v' (countDog t)) s' /\
    rep (st_heap s') v' t' l' /\ keys t' = keys t.
Proof.
  intros Hrep Hnd Hd Hp Hk.
  destruct (replace_plain h v t l max maxDepth Hrep Hnd Hd Hp Hk)
    as (v' & s' & l' & E & Hrep').
  exists v', s', (cat_for_dog t), l'. split; [done|]. split; [done|].
  apply cat_for_dog_keys.
Qed.

(** C7, at the failing input: the input object has the key
    ["__proto__"]; the call counts one replacement and returns an object
    with no key at all. *)
Theorem proto_key_dropped :
  rep proto_heap (VRef 0) proto_tree [0] /\
  keys proto_tree = ["__proto__"] /\
  exists s,
    replace proto_heap (VRef 0) 100 100 = Ok (mkResult (VRef 1) 1) s /\
    rep (st_heap s) (VRef 1) (JObj []) [1] /\
    keys (JObj []) = [].
Proof.
  split; [unfold proto_heap, proto_tree; rep_tac|]. split; [done|].
  eexists. split; [reflexivity|]. split; [|done].
  eapply rep_obj; [reflexivity|constructor].
Qed.

(** ** C8: a value without a match *)

(** C8, counterexample: [[x, x]] with [x = []] holds no match, is nested
    one level deep and has no cycle (it unfolds to the finite tree
    [[[], []]]), yet the call fails with [CircularReferenceError]. *)
Lemma no_match_counterexample :
  rep shared_heap (VRef 1) (JArr [JArr []; JArr []]) [1; 0; 0] /\
  countDog (JArr [JArr []; JArr []]) = 0 /\
  depthOf (JArr [JArr []; JArr []]) <= DEFAULT_MAX_DEPTH /\
  replace_default shared_heap (VRef 1) 100 = Err CircularReferenceError.
Proof.
  split; [unfold shared_heap; rep_tac|]. split; [done|].
  split; [apply Nat.leb_le; reflexivity|reflexivity].
Qed.

(** C8, amended: for every value that unfolds to a tree whose containers
    are all different (no cycle and no container shared between two
    places), nested within [maxDepth], without a ["__proto__"] key and
    without a match, the call returns data deep-equal to the input and
    [replacementCount = 0]. *)
Theorem no_match_fixed_point h v t l max maxDepth :
  rep h v t l -> NoDup l -> depthOf t <= maxDepth -> plain_keys t ->
  countDog t = 0 ->
  exists v' s',
    replace h v max maxDepth = Ok (mkResult v' 0) s' /\
    deep_equal h v (st_heap s') v'.
Proof.
  intros Hrep Hnd Hd Hp Hk.
  destruct (replace_plain h v t l max maxDepth Hrep Hnd Hd Hp)
    as (v' & s' & l' & E & Hrep'); [lia|].
  rewrite Hk in E. rewrite cat_for_dog_id in Hrep' by done.
  exists v', s'. split; [done|]. by exists t, l, l'.
Qed.

Lemma no_match_fixed_point_witness :
  exists v' s',
    replace dog_key_heap (VRef 0) 100 100 = Ok (mkResult v' 0) s' /\
    deep_equal dog_key_heap (VRef 0) (st_heap s') v'.
Proof.
  apply (no_match_fixed_point dog_key_heap (VRef 0) dog_key_tree [0] 100 100).
  - unfold dog_key_heap, dog_key_tree. rep_tac.
  - apply NoDup_singleton.
  - apply Nat.leb_le. reflexivity.
  - simpl. repeat split; discriminate.
  - reflexivity.
Defined.

(** ** C9: one result or one failure *)

(** A top-level call ends, either with a result or with exactly one of
    the three errors (carrying the limits of the call).  An error of any
    call made during the traversal is the error of the top-level call; so
    when the top-level call returns, every call made on the way has
    returned.  And what it returns, on a closed heap, is the number of
    matches of the input together with, when no object of the input has
    the key ["__proto__"], the whole transformed tree. *)
Lemma one_outcome h v max maxDepth :
  ((exists r s, replace h v max maxDepth = Ok r s) \/
   replace h v max maxDepth = Err (ReplacementLimitExceededError (max + 1) max) \/
   replace h v max maxDepth = Err CircularReferenceError \/
   replace h v max maxDepth = Err (MaxDepthExceededError maxDepth)) /\
  (forall c e,
     reaches max maxDepth (top_call h v) c -> exec max maxDepth c = Err e ->
     replace h v max maxDepth = Err e) /\
  (forall r s c,
     replace h v max maxDepth = Ok r s -> reaches max maxDepth (top_call h v) c ->
     exists r' s', exec max maxDepth c = Ok r' s') /\
  (forall r s,
     closed h -> bound h v -> replace h v max maxDepth = Ok r s ->
     exists t l,
       rep h v t l /\ replacementCount r = countDog t /\
       (plain_keys t ->
        exists l', rep (st_heap s) (data r) (cat_for_dog t) l')).
Proof.
  split; [|split; [|split]].
  - destruct (replace h v max maxDepth) as [r s|e|] eqn:E.
    + left. eauto.
    + right.
      pose proof (err_payload max maxDepth _ v 0 0 (mkState h ∅) e
                    (Nat.le_0_l _) E) as Hp.
      destruct e as [n lim| |d]; simpl in Hp.
      * destruct Hp as [-> ->]. by left.
      * right; by left.
      * subst. right; by right.
    + exfalso. revert E. rewrite <- exec_top. apply exec_total.
  - intros c e Hreach E. rewrite <- exec_top. by eapply reaches_err.
  - intros r s c E Hreach. rewrite <- exec_top in E.
    destruct (reaches_ok _ _ _ _ _ _ Hreach E) as (r' & s' & E' & _). eauto.
  - intros r s Hcl Hb E.
    destruct (replace_ok_inv h v max maxDepth r s Hcl Hb E)
      as (t & l & l' & Hrep & _ & _ & Hc & _ & Hrep' & _).
    exists t, l. split; [done|]. split; [done|].
    intros Hp. exists l'. by rewrite <- built_plain.
Qed.

Lemma closed_pet_heap : closed pet_heap.
Proof. repeat constructor. Qed.

Lemma one_outcome_witness :
  exists t l,
    rep pet_heap (VRef 0) t l /\ 1 = countDog t /\
    (plain_keys t ->
     exists l',
       rep (pet_heap ++ [CObj [("pet", cat); ("name", str "Max")]]) (VRef 1)
           (cat_for_dog t) l').
Proof.
  apply (proj2 (proj2 (proj2 (one_outcome pet_heap (VRef 0) 100 100)))
           (mkResult (VRef 1) 1)
           (mkState (pet_heap ++ [CObj [("pet", cat); ("name", str "Max")]])
                    ({[0]} ∪ ∅))).
  - exact closed_pet_heap.
  - simpl. lia.
  - reflexivity.
Defined.

(** C9, at the failing input: the call on the object
    [{"__proto__": "dog"}] returns, with count 1, and what it returns is
    not the transformed structure: the transformation of the input has
    the entry ["__proto__": "cat"], and the returned object has no entry
    at all. *)
Theorem proto_result_incomplete :
  rep proto_heap (VRef 0) proto_tree [0] /\
  cat_for_dog proto_tree = JObj [("__proto__", JScalar (SStr "cat"))] /\
  exists r s,
    replace_default proto_heap (VRef 0) 100 = Ok r s /\
    replacementCount r = 1 /\
    rep (st_heap s) (data r) (JObj []) [1] /\
    forall l', ~ rep (st_heap s) (data r) (cat_for_dog proto_tree) l'.
Proof.
  split; [unfold proto_heap, proto_tree; rep_tac|]. split; [done|].
  eexists _, _. split; [reflexivity|]. split; [done|]. split.
  - eapply rep_obj; [reflexivity|constructor].
  - intros l' H. inversion H as [| |a entries tes l Hlk Hes]; subst.
    injection Hlk as <-. inversion Hes.
Qed.

(** ** C10: results are fixed points *)

(** C10: whenever a top-level call on a closed heap returns, the data it
    returns unfolds to a tree without any match, and the call on that
    data, with the same limits, returns too, with count 0 and data
    deep-equal to it. *)
Theorem idempotent_on_results h v max maxDepth r s :
  closed h -> bound h v ->
  replace h v max maxDepth = Ok r s ->
  exists t' l',
    rep (st_heap s) (data r) t' l' /\ countDog t' = 0 /\
    exists r2 s2,
      replace (st_heap s) (data r) max maxDepth = Ok r2 s2 /\
      replacementCount r2 = 0 /\
      deep_equal (st_heap s) (data r) (st_heap s2) (data r2).
Proof.
  intros Hcl Hb E.
  destruct (replace_ok_inv h v max maxDepth r s Hcl Hb E)
    as (t & l & l' & _ & _ & Hd & _ & _ & Hrep' & Hnd').
  exists (built t), l'. split; [done|]. split; [apply countDog_built|].
  destruct (replace_ok (st_heap s) (data r) (built t) l' max maxDepth Hrep' Hnd')
    as (v2 & h2 & l2 & E2 & Hrep2 & _).
  { pose proof (depthOf_built t). lia. }
  { rewrite countDog_built. lia. }
  rewrite countDog_built in E2.
  rewrite (built_plain (built t)) in Hrep2 by apply plain_keys_built.
  rewrite cat_for_dog_id in Hrep2 by apply countDog_built.
  eexists _, _. split; [exact E2|]. split; [done|].
  exists (built t), l', l2. by split.
Qed.

Lemma idempotent_on_results_witness :
  exists t' l',
    rep (pet_heap ++ [CObj [("pet", cat); ("name", str "Max")]]) (VRef 1) t' l' /\
    countDog t' = 0 /\
    exists r2 s2,
      replace (pet_heap ++ [CObj [("pet", cat); ("name", str "Max")]]) (VRef 1)
              100 100 = Ok r2 s2 /\
      replacementCount r2 = 0 /\
      deep_equal (pet_heap ++ [CObj [("pet", cat); ("name", str "Max")]]) (VRef 1)
                 (st_heap s2) (data r2).
Proof.
  apply (idempotent_on_results pet_heap (VRef 0) 100 100
           (mkResult (VRef 1) 1)
           (mkState (pet_heap ++ [CObj [("pet", cat); ("name", str "Max")]])
                    ({[0]} ∪ ∅))).
  - exact closed_pet_heap.
  - simpl. lia.
  - reflexivity.
Defined.

(** * Further properties of the code *)

(** ** The limits and a result *)

Section LoopTransfer.
(** A loop over [rec2] returns what the loop over [rec1] returned, when
    [rec2] returns what [rec1] returned on every call whose result
    satisfies [good]; [good] holds of every count up to the final one. *)
Variable max : nat.
Variables rec1 rec2 : value -> nat -> state -> res ReplacementResult.
Variable bound_k : nat.
Hypothesis Hadv : forall v c st r st',
  rec1 v c st = Ok r st' -> advances max c st (replacementCount r) st'.
Hypothesis Hrec : forall v c st r st',
  rec1 v c st = Ok r st' -> replacementCount r <= bound_k ->
  rec2 v c st = Ok r st'.

Lemma loop_items_transfer items c acc st res k st' :
  loop_items rec1 items c acc st = Ok (res, k) st' -> k <= bound_k ->
  loop_items rec2 items c acc st = Ok (res, k) st'.
Proof.
  revert c acc st.
  induction items as [|item rest IH]; intros c acc st; simpl; [done|].
  destruct (rec1 item c st) as [r s| |] eqn:E; [|done..]. intros Hl Hk.
  pose proof (loop_items_advances max rec1 Hadv _ _ _ _ _ _ _ Hl) as (Hle & _).
  rewrite (Hrec _ _ _ _ _ E) by lia. by apply IH.
Qed.

Lemma loop_entries_transfer entries c acc st res k st' :
  loop_entries rec1 entries c acc st = Ok (res, k) st' -> k <= bound_k ->
  loop_entries rec2 entries c acc st = Ok (res, k) st'.
Proof.
  revert c acc st.
  induction entries as [|[key val] rest IH]; intros c acc st; simpl; [done|].
  destruct (rec1 val c st) as [r s| |] eqn:E; [|done..]. intros Hl Hk.
  pose proof (loop_entries_advances max rec1 Hadv _ _ _ _ _ _ _ Hl) as (Hle & _).
  rewrite (Hrec _ _ _ _ _ E) by lia. by apply IH.
Qed.
End LoopTransfer.

(** A result obtained under [max] and [maxDepth] is obtained, with the
    same budget, under every limit that is at least its count and every
    depth ceiling that is at least [maxDepth]. *)
Lemma ok_under_other_limits max maxDepth max' maxDepth' fuel :
  maxDepth <= maxDepth' ->
  forall v c depth st r s,
  replaceDogWithCat fuel v max c depth maxDepth st = Ok r s ->
  replacementCount r <= max' ->
  replaceDogWithCat fuel v max' c depth maxDepth' st = Ok r s.
Proof.
  intros Hmd.
  induction fuel as [|fuel IH]; intros v c depth st r s; [done|].
  rewrite !replaceDogWithCat_S.
  destruct (decide (maxDepth < depth)); [done|].
  destruct (decide (maxDepth' < depth)); [lia|].
  destruct (is_dog v).
  { destruct (decide (max < c + 1)); [done|]. intros [= <- <-] Hk. simpl in Hk.
    by destruct (decide (max' < c + 1)); [lia|]. }
  cbv zeta. destruct v as [sc|a]; [done|].
  destruct (st_heap st !! a) as [[items|entries]|]; [| |done].
  - destruct (decide _); [done|].
    destruct (loop_items _ _ _ _ _) as [[res k] s2| |] eqn:E; [|done..].
    intros Hret Hk.
    assert (k = replacementCount r) as Hkr.
    { unfold return_container, alloc in Hret. by injection Hret as <- _. }
    eapply (loop_items_transfer max _
              (fun v c s => replaceDogWithCat fuel v max' c (depth + 1) maxDepth' s)
              max') in E; [by rewrite E| | |lia].
    + intros; by eapply ok_advances.
    + intros. by eapply IH.
  - destruct (decide _); [done|].
    destruct (loop_entries _ _ _ _ _) as [[res k] s2| |] eqn:E; [|done..].
    intros Hret Hk.
    assert (k = replacementCount r) as Hkr.
    { unfold return_container, alloc in Hret. by injection Hret as <- _. }
    eapply (loop_entries_transfer max _
              (fun v c s => replaceDogWithCat fuel v max' c (depth + 1) maxDepth' s)
              max') in E; [by rewrite E| | |lia].
    + intros; by eapply ok_advances.
    + intros. by eapply IH.
Qed.

Section LoopFuel.
Variables rec1 rec2 : value -> nat -> state -> res ReplacementResult.
Hypothesis Hrec : forall v c st r st',
  rec1 v c st = Ok r st' -> rec2 v c st = Ok r st'.

Lemma loop_items_ok_ext items c acc st res k st' :
  loop_items rec1 items c acc st = Ok (res, k) st' ->
  loop_items rec2 items c acc st = Ok (res, k) st'.
Proof.
  revert c acc st.
  induction items as [|item rest IH]; intros c acc st; simpl; [done|].
  destruct (rec1 item c st) as [r s| |] eqn:E; [|done..].
  rewrite (Hrec _ _ _ _ _ E). apply IH.
Qed.

Lemma loop_entries_ok_ext entries c acc st res k st' :
  loop_entries rec1 entries c acc st = Ok (res, k) st' ->
  loop_entries rec2 entries c acc st = Ok (res, k) st'.
Proof.
  revert c acc st.
  induction entries as [|[key val] rest IH]; intros c acc st; simpl; [done|].
  destruct (rec1 val c st) as [r s| |] eqn:E; [|done..].
  rewrite (Hrec _ _ _ _ _ E). apply IH.
Qed.
End LoopFuel.

(** More budget does not change a result. *)
Lemma ok_more_fuel max maxDepth fuel :
  forall fuel' v c depth st r s,
  fuel <= fuel' ->
  replaceDogWithCat fuel v max c depth maxDepth st = Ok r s ->
  replaceDogWithCat fuel' v max c depth maxDepth st = Ok r s.
Proof.
  induction fuel as [|fuel IH]; intros fuel' v c depth st r s Hf; [done|].
  destruct fuel' as [|fuel']; [lia|].
  rewrite !replaceDogWithCat_S.
  destruct (decide (maxDepth < depth)); [done|].
  destruct (is_dog v); [done|].
  cbv zeta. destruct v as [sc|a]; [done|].
  destruct (st_heap st !! a) as [[items|entries]|]; [| |done].
  - destruct (decide _); [done|].
    destruct (loop_items _ _ _ _ _) as [[res k] s2| |] eqn:E; [|done..].
    eapply (loop_items_ok_ext _
              (fun v c s => replaceDogWithCat fuel' v max c (depth + 1) maxDepth s))
      in E; [by rewrite E|].
    intros. eapply IH; [lia|done].
  - destruct (decide _); [done|].
    destruct (loop_entries _ _ _ _ _) as [[res k] s2| |] eqn:E; [|done..].
    eapply (loop_entries_ok_ext _
              (fun v c s => replaceDogWithCat fuel' v max c (depth + 1) maxDepth s))
      in E; [by rewrite E|].
    intros. eapply IH; [lia|done].
Qed.

(** X1: a successful call does not depend on how generous the limits
    are: every [maxReplacements] that is at least the returned count,
    and every [maxDepth] that is at least the one used, give the same
    data and the same count. *)
Theorem result_under_other_limits h v max maxDepth max' maxDepth' r s :
  replace h v max maxDepth = Ok r s ->
  replacementCount r <= max' -> maxDepth <= maxDepth' ->
  replace h v max' maxDepth' = Ok r s.
Proof.
  intros E Hk Hd. unfold replace in *.
  eapply (ok_more_fuel _ _ (budget maxDepth 0)); [unfold budget; lia|].
  by eapply ok_under_other_limits.
Qed.

Lemma result_under_other_limits_witness :
  replace pet_heap (VRef 0) 1 200 =
    Ok (mkResult (VRef 1) 1)
       (mkState (pet_heap ++ [CObj [("pet", cat); ("name", str "Max")]])
                ({[0]} ∪ ∅)).
Proof.
  apply (result_under_other_limits pet_heap (VRef 0) 100 100 1 200).
  - reflexivity.
  - simpl. lia.
  - lia.
Defined.

(** ** The result is a copy *)

(** X2: a call that returns has left every container of the input as it
    was, and the data it returns is made of new containers only: no
    container of the input is part of the result. *)
Theorem result_is_a_copy h v max maxDepth r s :
  closed h -> bound h v ->
  replace h v max maxDepth = Ok r s ->
  (forall a c, h !! a = Some c -> st_heap s !! a = Some c) /\
  exists t' l',
    rep (st_heap s) (data r) t' l' /\
    Forall (fun a => h !! a = None) l'.
Proof.
  intros Hcl Hb Hok. split.
  - apply ok_advances in Hok as (_ & _ & _ & h2 & ->). simpl.
    intros a c Ha. by apply lookup_app_l_Some.
  - destruct (ok_walked h max maxDepth _ Hcl v 0 0 (mkState h ∅) r s Hb
                (ex_intro _ [] (eq_sym (app_nil_r h))) Hok)
      as (t & l & Hrep & Hnd & _ & _).
    pose proof (replace_refines h v t l max maxDepth Hrep Hnd) as H.
    rewrite Hok in H. unfold refines in H.
    destruct (walk max maxDepth t 0 0) as [e|[t' c']]; [done|].
    destruct H as (v' & h2 & l' & [= -> ->] & Hrep' & _ & Hge).
    exists t', l'. split; [done|].
    eapply Forall_impl; [exact Hge|]. intros a Ha. simpl in Ha.
    by apply lookup_ge_None.
Qed.

Lemma result_is_a_copy_witness :
  (forall a c, pet_heap !! a = Some c ->
     (pet_heap ++ [CObj [("pet", cat); ("name", str "Max")]]) !! a = Some c) /\
  exists t' l',
    rep (pet_heap ++ [CObj [("pet", cat); ("name", str "Max")]]) (VRef 1) t' l' /\
    Forall (fun a => pet_heap !! a = None) l'.
Proof.
  apply (result_is_a_copy pet_heap (VRef 0) 100 100 (mkResult (VRef 1) 1)
           (mkState (pet_heap ++ [CObj [("pet", cat); ("name", str "Max")]])
                    ({[0]} ∪ ∅))).
  - exact closed_pet_heap.
  - simpl. lia.
  - reflexivity.
Defined.

(** ** The replacer before the guards *)

Lemma unguarded_S fuel v max c h :
  Unguarded.replaceDogWithCat (S fuel) v max c h =
    if is_dog v then
      if decide (max < c + 1) then Unguarded.Throw (c + 1) max
      else Unguarded.Ok (mkResult cat (c + 1)) h
    else
      let rec := fun v' c' h' => Unguarded.replaceDogWithCat fuel v' max c' h' in
      match v with
      | VRef a =>
          match h !! a with
          | Some (CArr items) =>
              match Unguarded.loop_items rec items c [] h with
              | Unguarded.Ok (result, totalCount) h' =>
                  Unguarded.return_container (CArr result) totalCount h'
              | Unguarded.Throw n lim => Unguarded.Throw n lim
              | Unguarded.Timeout => Unguarded.Timeout
              end
          | Some (CObj entries) =>
              match Unguarded.loop_entries rec entries c [] h with
              | Unguarded.Ok (result, totalCount) h' =>
                  Unguarded.return_container (CObj result) totalCount h'
              | Unguarded.Throw n lim => Unguarded.Throw n lim
              | Unguarded.Timeout => Unguarded.Timeout
              end
          | None => Unguarded.Ok (mkResult v c) h
          end
      | VScalar _ => Unguarded.Ok (mkResult v c) h
      end.
Proof. reflexivity. Qed.

Section LoopAgrees.
Variable grec : value -> nat -> state -> res ReplacementResult.
Variable urec : value -> nat -> list container -> Unguarded.res ReplacementResult.
Hypothesis Hrec : forall v c st, agrees (grec v c st) (urec v c (st_heap st)).

Lemma loop_items_agrees items c acc st :
  agrees (loop_items grec items c acc st)
         (Unguarded.loop_items urec items c acc (st_heap st)).
Proof.
  revert c acc st.
  induction items as [|item rest IH]; intros c acc st; simpl; [done|].
  pose proof (Hrec item c st) as H. unfold agrees in H.
  destruct (grec item c st) as [r s|[n lim| |]|]; simpl; try done.
  - rewrite H. apply IH.
  - by rewrite H.
Qed.

Lemma loop_entries_agrees entries c acc st :
  agrees (loop_entries grec entries c acc st)
         (Unguarded.loop_entries urec entries c acc (st_heap st)).
Proof.
  revert c acc st.
  induction entries as [|[key val] rest IH]; intros c acc st; simpl; [done|].
  pose proof (Hrec val c st) as H. unfold agrees in H.
  destruct (grec val c st) as [r s|[n lim| |]|]; simpl; try done.
  - rewrite H. apply IH.
  - by rewrite H.
Qed.
End LoopAgrees.

Lemma guarded_agrees max maxDepth fuel :
  forall v c depth st,
  agrees (replaceDogWithCat fuel v max c depth maxDepth st)
         (Unguarded.replaceDogWithCat fuel v max c (st_heap st)).
Proof.
  induction fuel as [|fuel IH]; intros v c depth st; [done|].
  rewrite replaceDogWithCat_S, unguarded_S.
  destruct (decide (maxDepth < depth)); [done|].
  destruct (is_dog v); [by destruct (decide (max < c + 1))|].
  cbv zeta. destruct v as [sc|a]; [done|].
  destruct (st_heap st !! a) as [[items|entries]|]; [| |done].
  - destruct (decide _); [done|].
    pose proof (loop_items_agrees
                  (fun v c s => replaceDogWithCat fuel v max c (depth + 1) maxDepth s)
                  (fun v c h => Unguarded.replaceDogWithCat fuel v max c h)
                  (fun v c s => IH v c (depth + 1) s) items c [] (mark a st)) as H.
    simpl in H. unfold agrees in H.
    destruct (loop_items _ _ _ _ _) as [[res k] s|[cnt lim| |]|]; simpl; try done.
    + by rewrite H.
    + by rewrite H.
  - destruct (decide _); [done|].
    pose proof (loop_entries_agrees
                  (fun v c s => replaceDogWithCat fuel v max c (depth + 1) maxDepth s)
                  (fun v c h => Unguarded.replaceDogWithCat fuel v max c h)
                  (fun v c s => IH v c (depth + 1) s) entries c [] (mark a st)) as H.
    simpl in H. unfold agrees in H.
    destruct (loop_entries _ _ _ _ _) as [[res k] s|[cnt lim| |]|]; simpl; try done.
    + by rewrite H.
    + by rewrite H.
Qed.

Section UnguardedLoopFuel.
Variables rec1 rec2 : value -> nat -> list container -> Unguarded.res ReplacementResult.
Hypothesis Hrec : forall v c h, rec1 v c h <> Unguarded.Timeout -> rec2 v c h = rec1 v c h.

Lemma unguarded_loop_items_ext items c acc h :
  Unguarded.loop_items rec1 items c acc h <> Unguarded.Timeout ->
  Unguarded.loop_items rec2 items c acc h = Unguarded.loop_items rec1 items c acc h.
Proof.
  revert c acc h.
  induction items as [|item rest IH]; intros c acc h; simpl; [done|].
  intros Hl. rewrite Hrec; [|by destruct (rec1 item c h)].
  destruct (rec1 item c h); auto.
Qed.

Lemma unguarded_loop_entries_ext entries c acc h :
  Unguarded.loop_entries rec1 entries c acc h <> Unguarded.Timeout ->
  Unguarded.loop_entries rec2 entries c acc h =
  Unguarded.loop_entries rec1 entries c acc h.
Proof.
  revert c acc h.
  induction entries as [|[key val] rest IH]; intros c acc h; simpl; [done|].
  intros Hl. rewrite Hrec; [|by destruct (rec1 val c h)].
  destruct (rec1 val c h); auto.
Qed.
End UnguardedLoopFuel.

(** An outcome of the function without guards that was reached within a
    budget is its outcome under every larger budget. *)
Lemma unguarded_more_fuel max fuel :
  forall fuel' v c h,
  fuel <= fuel' ->
  Unguarded.replaceDogWithCat fuel v max c h <> Unguarded.Timeout ->
  Unguarded.replaceDogWithCat fuel' v max c h =
  Unguarded.replaceDogWithCat fuel v max c h.
Proof.
  induction fuel as [|fuel IH]; intros fuel' v c h Hf; [done|].
  destruct fuel' as [|fuel']; [lia|].
  rewrite !unguarded_S.
  destruct (is_dog v); [done|].
  cbv zeta. destruct v as [sc|a]; [done|].
  destruct (h !! a) as [[items|entries]|]; [| |done].
  - intros Hl.
    rewrite (unguarded_loop_items_ext
               (fun v c h => Unguarded.replaceDogWithCat fuel v max c h)
               (fun v c h => Unguarded.replaceDogWithCat fuel' v max c h)); [done| |].
    + intros. apply IH; [lia|done].
    + by destruct (Unguarded.loop_items _ _ _ _ _).
  - intros Hl.
    rewrite (unguarded_loop_entries_ext
               (fun v c h => Unguarded.replaceDogWithCat fuel v max c h)
               (fun v c h => Unguarded.replaceDogWithCat fuel' v max c h)); [done| |].
    + intros. apply IH; [lia|done].
    + by destruct (Unguarded.loop_entries _ _ _ _ _).
Qed.

(** X3: the guards took nothing away from the inputs they let through.
    Whenever the guarded function returns, the function without guards
    returns the same data and count, leaving the same heap; and whenever
    the guarded function raises [ReplacementLimitExceededError], the
    function without guards raises it with the same two numbers. *)
Theorem guards_keep_results h v max maxDepth fuel :
  budget maxDepth 0 <= fuel ->
  (forall r s,
     replace h v max maxDepth = Ok r s ->
     Unguarded.replaceDogWithCat fuel v max 0 h = Unguarded.Ok r (st_heap s)) /\
  (forall n lim,
     replace h v max maxDepth = Err (ReplacementLimitExceededError n lim) ->
     Unguarded.replaceDogWithCat fuel v max 0 h = Unguarded.Throw n lim).
Proof.
  intros Hf.
  pose proof (guarded_agrees max maxDepth (budget maxDepth 0) v 0 0 (mkState h ∅))
    as H.
  change (replaceDogWithCat (budget maxDepth 0) v max 0 0 maxDepth (mkState h ∅))
    with (replace h v max maxDepth) in H.
  cbn [st_heap] in H.
  split.
  - intros r s E. rewrite E in H. unfold agrees in H.
    rewrite (unguarded_more_fuel max _ fuel v 0 h Hf); by rewrite H.
  - intros n lim E. rewrite E in H. unfold agrees in H.
    rewrite (unguarded_more_fuel max _ fuel v 0 h Hf); by rewrite H.
Qed.

Lemma guards_keep_results_witness :
  Unguarded.replaceDogWithCat 5 (VRef 0) 100 0 pet_heap =
    Unguarded.Ok (mkResult (VRef 1) 1)
      (pet_heap ++ [CObj [("pet", cat); ("name", str "Max")]]) /\
  Unguarded.replaceDogWithCat 5 (VRef 0) 1 0 two_dogs_heap = Unguarded.Throw 2 1.
Proof.
  split.
  - apply (proj1 (guards_keep_results pet_heap (VRef 0) 100 2 5 ltac:(unfold budget; lia))
             (mkResult (VRef 1) 1)
             (mkState (pet_heap ++ [CObj [("pet", cat); ("name", str "Max")]])
                      ({[0]} ∪ ∅))).
    reflexivity.
  - apply (proj2 (guards_keep_results two_dogs_heap (VRef 0) 1 2 5
                    ltac:(unfold budget; lia)) 2 1).
    reflexivity.
Defined.

Lemma unguarded_loop_items_app rec pre post c acc h :
  Unguarded.loop_items rec (pre ++ post) c acc h =
    match Unguarded.loop_items rec pre c acc h with
    | Unguarded.Ok (racc, c') h' => Unguarded.loop_items rec post c' racc h'
    | Unguarded.Throw n lim => Unguarded.Throw n lim
    | Unguarded.Timeout => Unguarded.Timeout
    end.
Proof.
  revert c acc h. induction pre as [|x pre IH]; intros c acc h; simpl; [done|].
  destruct (rec x c h); auto.
Qed.

Lemma unguarded_loop_entries_app rec pre post c acc h :
  Unguarded.loop_entries rec (pre ++ post) c acc h =
    match Unguarded.loop_entries rec pre c acc h with
    | Unguarded.Ok (racc, c') h' => Unguarded.loop_entries rec post c' racc h'
    | Unguarded.Throw n lim => Unguarded.Throw n lim
    | Unguarded.Timeout => Unguarded.Timeout
    end.
Proof.
  revert c acc h.
  induction pre as [|[k x] pre IH]; intros c acc h; simpl; [done|].
  destruct (rec x c h); auto.
Qed.

Section UnguardedLoopGrows.
Variable rec : value -> nat -> list container -> Unguarded.res ReplacementResult.
Hypothesis Hrec : forall v c h r h',
  rec v c h = Unguarded.Ok r h' -> exists h2, h' = h ++ h2.

Lemma unguarded_loop_items_grows items c acc h res k h' :
  Unguarded.loop_items rec items c acc h = Unguarded.Ok (res, k) h' ->
  exists h2, h' = h ++ h2.
Proof.
  revert c acc h.
  induction items as [|item rest IH]; intros c acc h; simpl.
  - intros [= <- <- <-]. exists []. by rewrite app_nil_r.
  - destruct (rec item c h) as [r h1| |] eqn:E; [|done..]. intros Hl.
    apply Hrec in E as [h2 ->]. apply IH in Hl as [h3 ->].
    exists (h2 ++ h3). by rewrite app_assoc.
Qed.

Lemma unguarded_loop_entries_grows entries c acc h res k h' :
  Unguarded.loop_entries rec entries c acc h = Unguarded.Ok (res, k) h' ->
  exists h2, h' = h ++ h2.
Proof.
  revert c acc h.
  induction entries as [|[key val] rest IH]; intros c acc h; simpl.
  - intros [= <- <- <-]. exists []. by rewrite app_nil_r.
  - destruct (rec val c h) as [r h1| |] eqn:E; [|done..]. intros Hl.
    apply Hrec in E as [h2 ->]. apply IH in Hl as [h3 ->].
    exists (h2 ++ h3). by rewrite app_assoc.
Qed.
End UnguardedLoopGrows.

Lemma unguarded_grows max fuel :
  forall v c h r h',
  Unguarded.replaceDogWithCat fuel v max c h = Unguarded.Ok r h' ->
  exists h2, h' = h ++ h2.
Proof.
  induction fuel as [|fuel IH]; intros v c h r h'; [done|].
  rewrite unguarded_S.
  assert (Hrefl : exists h2, h = h ++ h2) by (exists []; by rewrite app_nil_r).
  destruct (is_dog v).
  { destruct (decide (max < c + 1)); [done|]. by intros [= <- <-]. }
  cbv zeta. destruct v as [sc|a]; [by intros [= <- <-]|].
  destruct (h !! a) as [[items|entries]|]; [| |by intros [= <- <-]].
  - destruct (Unguarded.loop_items _ _ _ _ _) as [[res k] h1| |] eqn:E; [|done..].
    apply unguarded_loop_items_grows in E as [h2 ->]; [|apply IH].
    unfold Unguarded.return_container, alloc. intros [= <- <-].
    exists (h2 ++ [CArr res]). by rewrite app_assoc.
  - destruct (Unguarded.loop_entries _ _ _ _ _) as [[res k] h1| |] eqn:E; [|done..].
    apply unguarded_loop_entries_grows in E as [h2 ->]; [|apply IH].
    unfold Unguarded.return_container, alloc. intros [= <- <-].
    exists (h2 ++ [CObj res]). by rewrite app_assoc.
Qed.

(** A call on a container that returns has seen the call on each
    contained container return, with one unit of budget less. *)
Lemma unguarded_descends h a b max fuel c h2 r h' :
  contains h a b ->
  Unguarded.replaceDogWithCat (S fuel) (VRef a) max c (h ++ h2) =
    Unguarded.Ok r h' ->
  exists c' h3 r' h'',
    Unguarded.replaceDogWithCat fuel (VRef b) max c' (h ++ h3) =
      Unguarded.Ok r' h''.
Proof.
  unfold contains. intros Hc. rewrite unguarded_S, is_dog_ref. cbv zeta.
  destruct (h !! a) as [[items|entries]|] eqn:Ha; [| |done].
  - rewrite (lookup_app_l_Some _ _ _ _ Ha).
    apply list_elem_of_split in Hc as (pre & post & ->).
    rewrite unguarded_loop_items_app.
    destruct (Unguarded.loop_items _ pre _ _ _) as [[racc c'] h1| |] eqn:E;
      [|done..].
    apply unguarded_loop_items_grows in E as [h3 ->];
      [|intros; by eapply unguarded_grows].
    simpl.
    destruct (Unguarded.replaceDogWithCat fuel (VRef b) max c' _)
      as [r' h''| |] eqn:E'; [|done..].
    intros _. exists c', (h2 ++ h3), r', h''. by rewrite app_assoc.
  - rewrite (lookup_app_l_Some _ _ _ _ Ha).
    apply list_elem_of_fmap in Hc as ([k x] & Hx & Hin). simpl in Hx. subst x.
    apply list_elem_of_split in Hin as (pre & post & ->).
    rewrite unguarded_loop_entries_app.
    destruct (Unguarded.loop_entries _ pre _ _ _) as [[racc c'] h1| |] eqn:E;
      [|done..].
    apply unguarded_loop_entries_grows in E as [h3 ->];
      [|intros; by eapply unguarded_grows].
    simpl.
    destruct (Unguarded.replaceDogWithCat fuel (VRef b) max c' _)
      as [r' h''| |] eqn:E'; [|done..].
    intros _. exists c', (h2 ++ h3), r', h''. by rewrite app_assoc.
Qed.

Lemma unguarded_descends_path h a b max :
  tc (contains h) a b ->
  forall fuel c h2 r h',
  Unguarded.replaceDogWithCat fuel (VRef a) max c (h ++ h2) = Unguarded.Ok r h' ->
  exists fuel' c' h3 r' h'',
    fuel' < fuel /\
    Unguarded.replaceDogWithCat fuel' (VRef b) max c' (h ++ h3) =
      Unguarded.Ok r' h''.
Proof.
  induction 1 as [a b Hab|a m b Ham Hmb IH]; intros fuel c h2 r h' E.
  - destruct fuel as [|fuel]; [done|].
    destruct (unguarded_descends _ _ _ _ _ _ _ _ _ Hab E) as (c' & h3 & r' & h'' & E').
    exists fuel, c', h3, r', h''. split; [lia|done].
  - destruct fuel as [|fuel]; [done|].
    destruct (unguarded_descends _ _ _ _ _ _ _ _ _ Ham E) as (c' & h3 & r' & h'' & E').
    destruct (IH _ _ _ _ _ E') as (f2 & c2 & h4 & r2 & h2' & Hlt & E2).
    exists f2, c2, h4, r2, h2'. split; [lia|done].
Qed.

Lemma unguarded_no_return h a max :
  tc (contains h) a a ->
  forall fuel c h2 r h',
  Unguarded.replaceDogWithCat fuel (VRef a) max c (h ++ h2) <> Unguarded.Ok r h'.
Proof.
  intros Hcyc fuel.
  induction fuel as [fuel IH] using lt_wf_ind. intros c h2 r h' E.
  destruct (unguarded_descends_path h a a max Hcyc _ _ _ _ _ E)
    as (f2 & c2 & h3 & r2 & h2' & Hlt & E2).
  exact (IH f2 Hlt c2 h3 r2 h2' E2).
Qed.

(** X4: the function without guards never returns on a container that
    contains itself, directly or through other containers: whatever the
    budget, it is used up or the replacement limit is hit first. *)
Theorem unguarded_never_returns_on_cycle h a max :
  tc (contains h) a a ->
  forall fuel c r h',
  Unguarded.replaceDogWithCat fuel (VRef a) max c h <> Unguarded.Ok r h'.
Proof.
  intros Hcyc fuel c r h'.
  pose proof (unguarded_no_return h a max Hcyc fuel c [] r h') as H.
  by rewrite app_nil_r in H.
Qed.

Lemma unguarded_never_returns_on_cycle_witness :
  Unguarded.replaceDogWithCat 1000 (VRef 0) 100 0 self_obj_heap <>
    Unguarded.Ok (mkResult (VRef 1) 1) self_obj_heap.
Proof.
  apply (unguarded_never_returns_on_cycle self_obj_heap 0 100).
  apply tc_once. unfold contains, self_obj_heap. simpl.
  apply list_elem_of_In. simpl. auto.
Defined.

(** X5: the guarded function answers every container that contains
    itself, directly or through other containers, with one of its three
    errors; it neither returns a result nor runs on. *)
Theorem guarded_rejects_cycle h a max maxDepth :
  tc (contains h) a a ->
  replace h (VRef a) max maxDepth =
    Err (ReplacementLimitExceededError (max + 1) max) \/
  replace h (VRef a) max maxDepth = Err CircularReferenceError \/
  replace h (VRef a) max maxDepth = Err (MaxDepthExceededError maxDepth).
Proof.
  intros Hcyc.
  pose proof (guarded_agrees max maxDepth (budget maxDepth 0) (VRef a) 0 0
                (mkState h ∅)) as Hag.
  pose proof (no_timeout (budget maxDepth 0) (VRef a) max 0 0 maxDepth
                (mkState h ∅) (le_n _)) as Hnt.
  pose proof (err_payload max maxDepth (budget maxDepth 0) (VRef a) 0 0
                (mkState h ∅)) as Hpay.
  change (replaceDogWithCat (budget maxDepth 0) (VRef a) max 0 0 maxDepth
            (mkState h ∅)) with (replace h (VRef a) max maxDepth) in *.
  destruct (replace h (VRef a) max maxDepth) as [r s|e|]; [| |done].
  - unfold agrees in Hag. cbn [st_heap] in Hag.
    pose proof (unguarded_no_return h a max Hcyc (budget maxDepth 0) 0 []
                  r (st_heap s)) as H.
    rewrite app_nil_r in H. done.
  - specialize (Hpay e (Nat.le_0_l _) eq_refl).
    destruct e as [n lim| |d]; simpl in Hpay.
    + destruct Hpay as [-> ->]. by left.
    + right. by left.
    + subst d. right. by right.
Qed.

Lemma guarded_rejects_cycle_witness :
  replace self_heap (VRef 0) 100 100 =
    Err (ReplacementLimitExceededError (100 + 1) 100) \/
  replace self_heap (VRef 0) 100 100 = Err CircularReferenceError \/
  replace self_heap (VRef 0) 100 100 = Err (MaxDepthExceededError 100).
Proof.
  apply (guarded_rejects_cycle self_heap 0 100 100).
  apply tc_once. unfold contains, self_heap. simpl.
  apply list_elem_of_In. simpl. auto.
Defined.

(** ** [loadConfig] *)

Lemma js_String c s : js (String c s) = Ascii.N_of_ascii c :: js s.
Proof. reflexivity. Qed.

Lemma digit_of_char x :
  (x < 10)%N -> digit_of (Ascii.N_of_ascii (pretty_N_char x)) = Some (Z.of_N x).
Proof.
  intros Hx.
  assert (x = 0 \/ x = 1 \/ x = 2 \/ x = 3 \/ x = 4 \/ x = 5 \/ x = 6 \/
          x = 7 \/ x = 8 \/ x = 9)%N as H by lia.
  repeat (destruct H as [->|H]; [reflexivity|]). by subst x.
Qed.

Lemma digits_pretty_go x :
  forall s t,
  digits 0 (js (pretty_N_go x s) ++ t) = digits (Z.of_N x) (js s ++ t).
Proof.
  induction (N.lt_wf_0 x) as [x _ IH]. intros s t.
  destruct (decide (0 < x)%N) as [Hx|Hx].
  - rewrite pretty_N_go_step by done.
    rewrite (IH (x `div` 10)%N) by (by apply N.div_lt).
    rewrite js_String. cbn [app digits].
    rewrite digit_of_char by (by apply N.mod_lt).
    f_equal. pose proof (N.div_mod x 10 ltac:(done)) as Hdm.
    generalize dependent (x `div` 10)%N. generalize (x `mod` 10)%N.
    intros. lia.
  - assert (x = 0%N) as -> by lia. by rewrite pretty_N_go_0.
Qed.

Lemma head_digit_pretty_go x :
  forall s t, (0 < x)%N \/ head_digit (js s ++ t) ->
  head_digit (js (pretty_N_go x s) ++ t).
Proof.
  induction (N.lt_wf_0 x) as [x _ IH]. intros s t Hor.
  destruct (decide (0 < x)%N) as [Hx|Hx].
  - rewrite pretty_N_go_step by done.
    apply IH; [by apply N.div_lt|]. right.
    rewrite js_String. eexists _, _, _. split; [reflexivity|].
    apply digit_of_char. by apply N.mod_lt.
  - assert (x = 0%N) as -> by lia. rewrite pretty_N_go_0.
    destruct Hor as [?|?]; [lia|done].
Qed.

Lemma head_digit_numeral n t : head_digit (numeral n ++ t).
Proof.
  unfold numeral, pretty, pretty_N. destruct (decide (n = 0%N)) as [->|Hn].
  - by exists 48%N, t, 0%Z.
  - apply head_digit_pretty_go. left. lia.
Qed.

Lemma digits_no_digit_ahead acc junk :
  no_digit_ahead junk -> digits acc junk = acc.
Proof.
  destruct junk as [|c r]; [done|]. intros H. simpl.
  by rewrite (H c eq_refl).
Qed.

Lemma digits_numeral n junk :
  no_digit_ahead junk -> digits 0 (numeral n ++ junk) = Z.of_N n.
Proof.
  intros Hj. unfold numeral, pretty, pretty_N.
  destruct (decide (n = 0%N)) as [->|Hn].
  - change (js "0" ++ junk) with (48%N :: junk). cbn [digits].
    change (digit_of 48) with (Some 0%Z). cbv iota.
    by apply digits_no_digit_ahead.
  - rewrite digits_pretty_go. change (js "" ++ junk) with junk.
    by apply digits_no_digit_ahead.
Qed.

Lemma digit_not_ws c d : digit_of c = Some d -> is_ws c = false.
Proof.
  unfold digit_of. destruct ((48 <=? c)%N && (c <=? 57)%N) eqn:E; [|done].
  intros _. apply andb_true_iff in E as [E1 E2].
  apply N.leb_le in E1, E2.
  assert (c = 48 \/ c = 49 \/ c = 50 \/ c = 51 \/ c = 52 \/ c = 53 \/
          c = 54 \/ c = 55 \/ c = 56 \/ c = 57)%N as H by lia.
  repeat (destruct H as [->|H]; [reflexivity|]). by subst c.
Qed.

Lemma skip_ws_app ws s :
  Forall (fun c => is_ws c = true) ws -> skip_ws (ws ++ s) = skip_ws s.
Proof. induction 1 as [|c ws Hc _ IH]; [done|]. simpl. by rewrite Hc. Qed.

(** [parseInt] reads a numeral through leading white space and stops at
    the first code unit after it that is not a digit. *)
Lemma parseInt_numeral ws n junk :
  Forall (fun c => is_ws c = true) ws -> no_digit_ahead junk ->
  parseInt (ws ++ numeral n ++ junk) = Some (Z.of_N n).
Proof.
  intros Hws Hj. unfold parseInt. rewrite skip_ws_app by done.
  pose proof (digits_numeral n junk Hj) as Hd.
  destruct (head_digit_numeral n junk) as (c & r & d & E & Hc).
  rewrite E in *. cbn [skip_ws]. rewrite (digit_not_ws c d Hc).
  assert (c <> 45%N /\ c <> 43%N) as [H45 H43].
  { split; intros ->; discriminate Hc. }
  assert (match c :: r with
          | 45%N :: r0 => ((-1)%Z, r0)
          | 43%N :: r0 => (1%Z, r0)
          | _ => (1%Z, c :: r)
          end = (1%Z, c :: r)) as ->.
  { destruct c as [|q]; [done|].
    repeat (destruct q as [q|q|]; try done). }
  rewrite Hc, Hd. f_equal. lia.
Qed.

Lemma env_or_insert env name s fallback :
  s <> [] -> env_or (<[name := s]> env) name fallback = s.
Proof.
  intros Hs. unfold env_or. rewrite lookup_insert_eq. by destruct s.
Qed.

Lemma env_or_insert_ne env name name' s fallback :
  name <> name' ->
  env_or (<[name := s]> env) name' fallback = env_or env name' fallback.
Proof. intros Hn. unfold env_or. by rewrite lookup_insert_ne. Qed.

Lemma numeral_nonempty ws n junk : ws ++ numeral n ++ junk <> [].
Proof.
  destruct (head_digit_numeral n junk) as (c & r & d & E & _). rewrite E.
  by destruct ws.
Qed.

(** What [loadConfig] returns has passed both checks. *)
Lemma loadConfig_valid env cfg :
  loadConfig env = inr cfg ->
  exists p m, port cfg = Some p /\ maxReplacements cfg = Some m /\
              (1 <= p <= 65535)%Z /\ (1 <= m)%Z.
Proof.
  unfold loadConfig.
  destruct (parseInt (env_or env "PORT" _)) as [p|]; [|done].
  destruct (parseInt (env_or env "MAX_REPLACEMENTS" _)) as [m|]; simpl.
  - destruct (Z.ltb_spec p 1); [done|]. destruct (Z.ltb_spec 65535 p); [done|].
    destruct (Z.ltb_spec m 1); [done|]. simpl. intros [= <-].
    exists p, m. simpl. repeat split; lia.
  - destruct (Z.ltb_spec p 1); [done|]. by destruct (Z.ltb_spec 65535 p).
Qed.

(** [loadConfig] sees of the environment only what [parseInt] makes of the
    two variables. *)
Lemma loadConfig_parse env env' :
  parseInt (env_or env "PORT" (js "3000")) =
    parseInt (env_or env' "PORT" (js "3000")) ->
  parseInt (env_or env "MAX_REPLACEMENTS" (js "100")) =
    parseInt (env_or env' "MAX_REPLACEMENTS" (js "100")) ->
  loadConfig env = loadConfig env'.
Proof. unfold loadConfig. by intros -> ->. Qed.

(** X6: when both variables hold decimal numerals, [loadConfig] returns
    exactly the two numbers if the port is between 1 and 65535 and the
    limit is at least 1, and otherwise throws: the port message if the
    port is out of range, else the limit message.  (The limit is taken up
    to 2^53, the integers a Number holds exactly.) *)
Theorem loadConfig_numerals env p m :
  (m <= 2 ^ 53)%N ->
  loadConfig (<["PORT" := numeral p]>
                (<["MAX_REPLACEMENTS" := numeral m]> env)) =
    if decide (1 <= p <= 65535)%N
    then if decide (1 <= m)%N
         then inr (mkConfig (Some (Z.of_N p)) (Some (Z.of_N m)))
         else inl invalid_max_message
    else inl invalid_port_message.
Proof.
  intros _.
  pose proof (parseInt_numeral [] p [] (Forall_nil_2 _)
                ltac:(by intros c) ) as Hp.
  pose proof (parseInt_numeral [] m [] (Forall_nil_2 _)
                ltac:(by intros c)) as Hm.
  pose proof (numeral_nonempty [] p []) as Hpn.
  pose proof (numeral_nonempty [] m []) as Hmn.
  rewrite app_nil_l, app_nil_r in Hp, Hm, Hpn, Hmn.
  unfold loadConfig.
  rewrite env_or_insert by done.
  rewrite env_or_insert_ne by done.
  rewrite env_or_insert by done.
  rewrite Hp, Hm. simpl.
  destruct (Z.ltb_spec (Z.of_N p) 1); simpl.
  { destruct (decide _); [lia|done]. }
  destruct (Z.ltb_spec 65535 (Z.of_N p)); simpl.
  { destruct (decide _); [lia|done]. }
  destruct (decide (1 <= p <= 65535)%N); [|lia].
  destruct (Z.ltb_spec (Z.of_N m) 1); simpl.
  - destruct (decide _); [lia|done].
  - destruct (decide _); [done|lia].
Qed.

Lemma loadConfig_numerals_witness :
  loadConfig (<["PORT" := numeral 8080]>
                (<["MAX_REPLACEMENTS" := numeral 5]> ∅)) =
    inr (mkConfig (Some 8080%Z) (Some 5%Z)).
Proof.
  apply (loadConfig_numerals ∅ 8080 5). by vm_compute.
Defined.

(** X7: a variable that is not set and a variable that is set to the
    empty text both stand for the default, ["3000"] for the port and
    ["100"] for the limit. *)
Theorem loadConfig_defaults env :
  loadConfig (delete "PORT" env) = loadConfig (<["PORT" := js "3000"]> env) /\
  loadConfig (<["PORT" := []]> env) = loadConfig (<["PORT" := js "3000"]> env) /\
  loadConfig (delete "MAX_REPLACEMENTS" env) =
    loadConfig (<["MAX_REPLACEMENTS" := js "100"]> env) /\
  loadConfig (<["MAX_REPLACEMENTS" := []]> env) =
    loadConfig (<["MAX_REPLACEMENTS" := js "100"]> env).
Proof.
  repeat split; apply loadConfig_parse; unfold env_or;
    rewrite ?lookup_delete_eq, ?lookup_insert_eq;
    rewrite ?lookup_delete_ne, ?lookup_insert_ne by done; done.
Qed.

(** X8: the checks are as lenient as [parseInt]: white space before a
    numeral and anything after it that does not start with a digit are
    ignored, so that the variable counts as the numeral alone. *)
Theorem loadConfig_lenient env name ws n junk :
  Forall (fun c => is_ws c = true) ws -> no_digit_ahead junk ->
  loadConfig (<[name := ws ++ numeral n ++ junk]> env) =
  loadConfig (<[name := numeral n]> env).
Proof.
  intros Hws Hj.
  pose proof (parseInt_numeral ws n junk Hws Hj) as H1.
  pose proof (parseInt_numeral [] n [] (Forall_nil_2 _) ltac:(by intros c)) as H2.
  pose proof (numeral_nonempty ws n junk) as N1.
  pose proof (numeral_nonempty [] n []) as N2.
  rewrite app_nil_l, app_nil_r in H2, N2.
  apply loadConfig_parse.
  - destruct (decide (name = "PORT")) as [->|Hne].
    + rewrite !env_or_insert by done. by rewrite H1, H2.
    + by rewrite !env_or_insert_ne by done.
  - destruct (decide (name = "MAX_REPLACEMENTS")) as [->|Hne].
    + rewrite !env_or_insert by done. by rewrite H1, H2.
    + by rewrite !env_or_insert_ne by done.
Qed.

Lemma loadConfig_lenient_witness :
  loadConfig (<["PORT" := js " 8080abc"]> ∅) =
  loadConfig (<["PORT" := js "8080"]> ∅).
Proof.
  apply (loadConfig_lenient ∅ "PORT" (js " ") 8080 (js "abc")).
  - repeat constructor.
  - intros c [= <-]. reflexivity.
Defined.

(** ** [replaceHandler] *)

Lemma loadConfig_port_out_of_range env p :
  ~ (1 <= p <= 65535)%N ->
  loadConfig (<["PORT" := numeral p]> env) = inl invalid_port_message.
Proof.
  intros Hp.
  pose proof (parseInt_numeral [] p [] (Forall_nil_2 _) ltac:(by intros c)) as H.
  pose proof (numeral_nonempty [] p []) as Hn.
  rewrite app_nil_l, app_nil_r in H, Hn.
  unfold loadConfig. rewrite env_or_insert by done. rewrite H. simpl.
  destruct (Z.ltb_spec (Z.of_N p) 1); [done|].
  destruct (Z.ltb_spec 65535 (Z.of_N p)); [done|]. lia.
Qed.

(** X9: the handler answers every request: it sends one response, with
    status 200, 400 or 500; it logs an error exactly when the status is
    500; and no container that existed before the request is changed. *)
Theorem handler_responds toString env h body :
  exists resp,
    replaceHandler toString env h body = Some resp /\
    (status resp = 200 \/ status resp = 400 \/ status resp = 500) /\
    (status resp = 500 <-> is_Some (logged resp)) /\
    (forall a c, h !! a = Some c -> resp_heap resp !! a = Some c).
Proof.
  unfold replaceHandler.
  destruct (decide (body = VScalar SUndefined)) as [_|_].
  { eexists. split; [reflexivity|]. simpl. repeat split; auto.
    - intros [=]. - by intros [? [=]]. }
  destruct (loadConfig env) as [msg|cfg].
  { eexists. split; [reflexivity|]. simpl. repeat split; auto. }
  set (m := limit_of (maxReplacements cfg)).
  pose proof (no_timeout (budget DEFAULT_MAX_DEPTH 0) body m 0 0
                DEFAULT_MAX_DEPTH (mkState h ∅) (le_n _)) as Hnt.
  pose proof (ok_advances m DEFAULT_MAX_DEPTH (budget DEFAULT_MAX_DEPTH 0)
                body 0 0 (mkState h ∅)) as Hadv.
  change (replaceDogWithCat (budget DEFAULT_MAX_DEPTH 0) body m 0 0
            DEFAULT_MAX_DEPTH (mkState h ∅))
    with (replace_default h body m) in *.
  destruct (replace_default h body m) as [r s|e|]; [| |done].
  - eexists. split; [reflexivity|]. simpl. repeat split; auto.
    + intros [=]. + by intros [? [=]].
    + destruct (Hadv r s eq_refl) as (_ & _ & _ & h2 & Hh).
      simpl in Hh. rewrite Hh. intros a c Ha. by apply lookup_app_l_Some.
  - destruct e as [n lim| |d]; (eexists; split; [reflexivity|]); simpl;
      repeat split; auto.
    + intros [=]. + by intros [? [=]].
Qed.

(** X10: a body that is a JSON tree nested no deeper than 100, with no
    more matches than the configured limit, is answered with status 200,
    the number of its matches under [replacements], and under [data] a
    value that unfolds to the tree the replacer builds. *)
Theorem handler_ok toString env cfg h v t l :
  loadConfig env = inr cfg -> v <> VScalar SUndefined ->
  rep h v t l -> NoDup l ->
  depthOf t <= DEFAULT_MAX_DEPTH ->
  countDog t <= limit_of (maxReplacements cfg) ->
  exists v' h2 l',
    replaceHandler toString env h v =
      Some (mkResponse 200
              [("data", FData v'); ("replacements", FNum (countDog t))]
              (h ++ h2) None) /\
    rep (h ++ h2) v' (built t) l'.
Proof.
  intros Hcfg Hv Hrep Hnd Hd Hk.
  destruct (replace_ok h v t l _ _ Hrep Hnd Hd Hk)
    as (v' & h2 & l' & E & Hrep' & _).
  exists v', h2, l'. split; [|done].
  unfold replaceHandler. destruct (decide (v = VScalar SUndefined)); [done|].
  rewrite Hcfg. unfold replace_default. by rewrite E.
Qed.

Lemma handler_ok_witness :
  exists v' h2 l',
    replaceHandler pretty ∅ pet_heap (VRef 0) =
      Some (mkResponse 200
              [("data", FData v'); ("replacements", FNum (countDog pet_tree))]
              (pet_heap ++ h2) None) /\
    rep (pet_heap ++ h2) v' (built pet_tree) l'.
Proof.
  apply (handler_ok pretty ∅ (mkConfig (Some 3000%Z) (Some 100%Z))
           pet_heap (VRef 0) pet_tree [0]).
  - by vm_compute.
  - done.
  - unfold pet_heap, pet_tree. rep_tac.
  - apply NoDup_singleton.
  - apply Nat.leb_le. reflexivity.
  - apply Nat.leb_le. reflexivity.
Defined.

(** X11: a body that is a JSON tree nested no deeper than 100 with more
    matches than the configured limit is answered with status 400,
    [replacements] one above the limit and [limit] the limit, whatever
    the number of matches; nothing is logged. *)
Theorem handler_limit toString env cfg h v t l :
  loadConfig env = inr cfg -> v <> VScalar SUndefined ->
  rep h v t l -> NoDup l ->
  depthOf t <= DEFAULT_MAX_DEPTH ->
  limit_of (maxReplacements cfg) < countDog t ->
  replaceHandler toString env h v =
    Some (mkResponse 400
            [("error", FStr "Replacement limit exceeded");
             ("message",
              FStr (error_message toString
                      (ReplacementLimitExceededError
                         (limit_of (maxReplacements cfg) + 1)
                         (limit_of (maxReplacements cfg)))));
             ("replacements", FNum (limit_of (maxReplacements cfg) + 1));
             ("limit", FNum (limit_of (maxReplacements cfg)))]
            h None).
Proof.
  intros Hcfg Hv Hrep Hnd Hd Hk.
  unfold replaceHandler. destruct (decide (v = VScalar SUndefined)); [done|].
  rewrite Hcfg. unfold replace_default.
  by rewrite (replace_limit h v t l _ _ Hrep Hnd Hd Hk).
Qed.

Lemma handler_limit_witness :
  replaceHandler pretty (<["MAX_REPLACEMENTS" := js "1"]> ∅)
                 two_dogs_heap (VRef 0) =
    Some (mkResponse 400
            [("error", FStr "Replacement limit exceeded");
             ("message",
              FStr "Replacement limit exceeded: 2 replacements (limit: 1)");
             ("replacements", FNum 2);
             ("limit", FNum 1)]
            two_dogs_heap None).
Proof.
  etrans.
  - apply (handler_limit pretty (<["MAX_REPLACEMENTS" := js "1"]> ∅)
             (mkConfig (Some 3000%Z) (Some 1%Z))
             two_dogs_heap (VRef 0) two_dogs_tree [0]).
    + by vm_compute.
    + done.
    + unfold two_dogs_heap, two_dogs_tree. rep_tac.
    + apply NoDup_singleton.
    + apply Nat.leb_le. reflexivity.
    + apply Nat.ltb_lt. reflexivity.
  - by vm_compute.
Defined.

(** X12: a body that is a JSON tree nested deeper than 100, with no more
    matches than the configured limit, is answered with status 500 and
    the general message: the depth error is logged and the client is not
    told what was wrong with the request. *)
Theorem handler_too_deep toString env cfg h v t l :
  loadConfig env = inr cfg -> v <> VScalar SUndefined ->
  rep h v t l -> NoDup l ->
  DEFAULT_MAX_DEPTH < depthOf t ->
  countDog t <= limit_of (maxReplacements cfg) ->
  replaceHandler toString env h v =
    Some (mkResponse 500
            [("error", FStr "Internal server error");
             ("message",
              FStr "An unexpected error occurred while processing the request")]
            h (Some (ReplacerError (MaxDepthExceededError DEFAULT_MAX_DEPTH)))).
Proof.
  intros Hcfg Hv Hrep Hnd Hd Hk.
  unfold replaceHandler. destruct (decide (v = VScalar SUndefined)); [done|].
  rewrite Hcfg. unfold replace_default.
  by rewrite (replace_too_deep h v t l _ _ Hrep Hnd Hk Hd).
Qed.

Lemma handler_too_deep_witness :
  replaceHandler pretty ∅ (chain 100) (VRef 0) =
    Some (mkResponse 500
            [("error", FStr "Internal server error");
             ("message",
              FStr "An unexpected error occurred while processing the request")]
            (chain 100)
            (Some (ReplacerError (MaxDepthExceededError DEFAULT_MAX_DEPTH)))).
Proof.
  apply (handler_too_deep pretty ∅ (mkConfig (Some 3000%Z) (Some 100%Z))
           (chain 100) (VRef 0) (chain_tree 100) (seq 0 101)).
  - by vm_compute.
  - done.
  - exact (chain_rep [SStr "dog"] 100 0 (Nat.le_0_l _)).
  - apply NoDup_seq.
  - apply Nat.ltb_lt. by vm_compute.
  - apply Nat.leb_le. by vm_compute.
Defined.

(** X13: the handler loads the whole configuration for every request
    that has a body.  A port out of range, which the handler has no use
    for, makes each such request end in status 500 with the general
    message, while a request without a body still gets its status 400. *)
Theorem handler_invalid_port toString env p h body :
  ~ (1 <= p <= 65535)%N ->
  (body <> VScalar SUndefined ->
   replaceHandler toString (<["PORT" := numeral p]> env) h body =
     Some (mkResponse 500
             [("error", FStr "Internal server error");
              ("message",
               FStr "An unexpected error occurred while processing the request")]
             h (Some (ConfigError invalid_port_message)))) /\
  replaceHandler toString (<["PORT" := numeral p]> env) h (VScalar SUndefined) =
    Some (mkResponse 400
            [("error", FStr "Invalid request");
             ("message",
              FStr "Request body is required and must be valid JSON")]
            h None).
Proof.
  intros Hp. split; [|done]. intros Hb.
  unfold replaceHandler. destruct (decide (body = VScalar SUndefined)); [done|].
  by rewrite (loadConfig_port_out_of_range env p Hp).
Qed.

Lemma handler_invalid_port_witness :
  replaceHandler pretty (<["PORT" := numeral 70000]> ∅) pet_heap (VRef 0) =
    Some (mkResponse 500
            [("error", FStr "Internal server error");
             ("message",
              FStr "An unexpected error occurred while processing the request")]
            pet_heap (Some (ConfigError invalid_port_message))).
Proof.
  apply (proj1 (handler_invalid_port pretty ∅ 70000 pet_heap (VRef 0)
                  ltac:(lia))).
  done.
Defined.
